(** * A state-vector measurement component over exact reals

    The notebooks of this repository drive a third-party [Statevector]
    object ([Statevector(...)], [.is_valid()], [.probabilities_dict()],
    [.measure()], [.sample_counts(...)], [.equiv(...)]).  The component those
    calls rely on is not part of the sources; every operation below is
    therefore modelled from the specification of that component, with
    amplitudes as exact complex numbers over [R] (floating point rounding is
    idealised away). *)

From Stdlib Require Import String Ascii.
From Stdlib Require Import Reals Psatz List Arith Lia Bool ZArith.
Import ListNotations.
Open Scope R_scope.

(** ** Complex amplitudes *)

Record C := mkC { re : R; im : R }.

Definition C0 : C := mkC 0 0.
Definition C1 : C := mkC 1 0.

Definition Cadd (a b : C) : C := mkC (re a + re b) (im a + im b).
Definition Csub (a b : C) : C := mkC (re a - re b) (im a - im b).
Definition Cmul (a b : C) : C :=
  mkC (re a * re b - im a * im b) (re a * im b + im a * re b).
Definition Cconj (a : C) : C := mkC (re a) (- im a).
Definition Cscale (r : R) (a : C) : C := mkC (r * re a) (r * im a).

(** Squared magnitude [|a|^2] and magnitude [|a|]. *)
Definition norm2 (a : C) : R := re a * re a + im a * im a.
Definition cabs (a : C) : R := sqrt (norm2 a).

(** ** Errors and results *)

Inductive Error :=
| DimensionError
| IndexError
| InvalidStateError
| ArgumentError.

Inductive result (A : Type) :=
| Ok : A -> result A
| Err : Error -> result A.
Arguments Ok {A} _.
Arguments Err {A} _.

(** ** StateVector *)

Record StateVector := mkSV { amplitudes : list C }.

Definition default_tolerance : R := / 100000000.

(** [n > 0 and n & (n - 1) == 0] *)
Definition is_power_of_two (n : nat) : bool :=
  (0 <? n)%nat && (Nat.land n (n - 1) =? 0)%nat.

(** Modelled from the spec: [construct], "fails with DimensionError if
    length is not a power of two; otherwise succeeds regardless of
    normalization". *)
Definition construct (amps : list C) : result StateVector :=
  if is_power_of_two (length amps) then Ok (mkSV amps) else Err DimensionError.

(** Modelled from the spec: [num_qubits = log2(length)]. *)
Definition num_qubits (s : StateVector) : nat := Nat.log2 (length (amplitudes s)).

Definition sumR (l : list R) : R := fold_right Rplus 0 l.

(** Modelled from the spec: [is_valid(tolerance)], true iff
    [|sum(|a_i|^2) - 1| <= tolerance]; a non-positive tolerance is an
    [ArgumentError] (section 7). *)
Definition is_valid (tolerance : R) (s : StateVector) : result bool :=
  if Rle_dec tolerance 0 then Err ArgumentError
  else if Rle_dec (Rabs (sumR (map norm2 (amplitudes s)) - 1)) tolerance
  then Ok true else Ok false.

(** Modelled from the spec: [amplitude_at(index)], [IndexError] out of range. *)
Definition amplitude_at (s : StateVector) (index : nat) : result C :=
  match nth_error (amplitudes s) index with
  | Some a => Ok a
  | None => Err IndexError
  end.

(** Modelled from the spec: [collapse_to(index)], amplitude 1 at [index] and
    0 elsewhere, the phase at [index] discarded. *)
Definition collapse_to (s : StateVector) (index : nat) : StateVector :=
  mkSV (map (fun j => if Nat.eqb j index then C1 else C0)
            (seq 0 (length (amplitudes s)))).

(** ** ProbabilityModel *)

(** Modelled from the spec: [probabilities(state)], [p_i = |amplitude_at(i)|^2]. *)
Definition probabilities (s : StateVector) : list R := map norm2 (amplitudes s).

Definition bit_char (b : bool) : ascii := if b then "1"%char else "0"%char.

(** The [n]-bit label of index [i], most significant bit first. *)
Fixpoint label (n i : nat) : string :=
  match n with
  | O => EmptyString
  | S m => String (bit_char (Nat.testbit i m)) (label m i)
  end.

(** Modelled from the spec: [probabilities_as_labels(state)], the label of
    every index mapped to its probability, in index order (zero-probability
    entries included; dropping them is left to the caller). *)
Definition probabilities_as_labels (s : StateVector) : list (string * R) :=
  let n := num_qubits s in
  let ps := probabilities s in
  map (fun i => (label n i, nth i ps 0)) (seq 0 (length ps)).

Fixpoint lookup {A} (k : string) (m : list (string * A)) : option A :=
  match m with
  | [] => None
  | (k', v) :: m' => if String.eqb k k' then Some v else lookup k m'
  end.

(** ** MeasurementSampler *)

(** Inverse-CDF selection over the probabilities in index order: the first
    index [k] whose cumulative sum exceeds [u]; the final cumulative value is
    treated as exactly 1, so the last index is returned when no earlier one
    is selected. *)
Fixpoint select_from (ps : list R) (acc : R) (k : nat) (u : R) : nat :=
  match ps with
  | [] => k
  | [_] => k
  | p :: rest =>
      if Rlt_dec u (acc + p) then k else select_from rest (acc + p) (S k) u
  end.

Definition select_index (s : StateVector) (u : R) : nat :=
  select_from (probabilities s) 0 0 u.

(** Counts keyed by label, in first-occurrence order. *)
Fixpoint incr (k : string) (counts : list (string * nat)) : list (string * nat) :=
  match counts with
  | [] => [(k, 1%nat)]
  | (k', c) :: rest =>
      if String.eqb k k' then (k', S c) :: rest else (k', c) :: incr k rest
  end.

Section Sampler.

(** The random source, passed explicitly: each call yields a uniform value
    in [0,1) and the next state of the source. *)
Variable G : Type.
Variable uniform : G -> R * G.

(** Modelled from the spec: [measure_once(state, rng)]. *)
Definition measure_once (s : StateVector) (g : G)
  : result (string * StateVector) * G :=
  match is_valid default_tolerance s with
  | Err e => (Err e, g)
  | Ok false => (Err InvalidStateError, g)
  | Ok true =>
      let '(u, g') := uniform g in
      let k := select_index s u in
      (Ok (label (num_qubits s) k, collapse_to s k), g')
  end.

Fixpoint shots_loop (s : StateVector) (m : nat) (g : G)
         (counts : list (string * nat)) : list (string * nat) * G :=
  match m with
  | O => (counts, g)
  | S m' =>
      let '(u, g') := uniform g in
      shots_loop s m' g' (incr (label (num_qubits s) (select_index s u)) counts)
  end.

(** Modelled from the spec: [sample_counts(state, shots, rng)]. *)
Definition sample_counts (s : StateVector) (shots : Z) (g : G)
  : result (list (string * nat)) * G :=
  match is_valid default_tolerance s with
  | Err e => (Err e, g)
  | Ok false => (Err InvalidStateError, g)
  | Ok true =>
      if (shots <? 0)%Z then (Err ArgumentError, g)
      else let '(counts, g') := shots_loop s (Z.to_nat shots) g [] in (Ok counts, g')
  end.

(** The uniform values drawn by [m] successive draws. *)
Fixpoint draws (m : nat) (g : G) : list R :=
  match m with
  | O => []
  | S m' => let '(u, g') := uniform g in u :: draws m' g'
  end.

End Sampler.

Arguments measure_once {G} uniform s g.
Arguments shots_loop {G} uniform s m g counts.
Arguments sample_counts {G} uniform s shots g.
Arguments draws {G} uniform m g.

Definition tally (labels : list string) : list (string * nat) :=
  fold_left (fun acc l => incr l acc) labels [].

(** ** EquivalenceChecker *)

(** The phase [z / |z|] of an amplitude ([1] for a zero amplitude). *)
Definition unit_phase (z : C) : C :=
  if Req_EM_T (norm2 z) 0 then C1 else Cscale (/ cabs z) z.

Fixpoint first_significant (tolerance : R) (l : list C) (k : nat) : option nat :=
  match l with
  | [] => None
  | a :: l' =>
      if Rlt_dec tolerance (cabs a) then Some k
      else first_significant tolerance l' (S k)
  end.

(** The phase ratio [e^{i(arg b_k - arg a_k)}] at the first index [k] where
    [|a_k|] exceeds the tolerance ([1], no alignment, when there is none). *)
Definition phase_ratio (tolerance : R) (a b : StateVector) : C :=
  match first_significant tolerance (amplitudes a) 0 with
  | Some k =>
      Cmul (unit_phase (nth k (amplitudes b) C0))
           (Cconj (unit_phase (nth k (amplitudes a) C0)))
  | None => C1
  end.

Definition within_tolerance (tolerance : R) (r : C) (xy : C * C) : bool :=
  if Rle_dec (cabs (Csub (Cmul r (fst xy)) (snd xy))) tolerance then true else false.

(** Modelled from the spec: [equivalent(a, b, tolerance)]: [a] multiplied by
    the phase ratio is compared element-wise with [b], every magnitude
    difference against the tolerance; a non-positive tolerance is an
    [ArgumentError] (section 7). *)
Definition equivalent (tolerance : R) (a b : StateVector) : result bool :=
  if Rle_dec tolerance 0 then Err ArgumentError
  else if negb (Nat.eqb (num_qubits a) (num_qubits b)) then Err DimensionError
  else Ok (forallb (within_tolerance tolerance (phase_ratio tolerance a b))
                   (combine (amplitudes a) (amplitudes b))).

(** ** Auxiliary definitions for the statements *)

(** [c_k = p_0 + ... + p_k]. *)
Definition cumulative (ps : list R) (k : nat) : R := sumR (firstn (S k) ps).

(** Total of the counts of a counts mapping. *)
Definition sum_counts (counts : list (string * nat)) : nat :=
  fold_right (fun kc acc => (snd kc + acc)%nat) 0%nat counts.

(** A random source replaying a fixed list of uniform values. *)
Definition list_source (l : list R) : R * list R :=
  match l with
  | [] => (0, [])
  | u :: rest => (u, rest)
  end.

(** Multiplication of every amplitude by a complex scalar. *)
Definition scale (w : C) (s : StateVector) : StateVector :=
  mkSV (map (Cmul w) (amplitudes s)).

(** [b] is within [tolerance] of [w * a] for some unit-magnitude [w = e^{i theta}]. *)
Definition phase_equivalent (tolerance : R) (a b : StateVector) : Prop :=
  exists w, norm2 w = 1 /\
    forall i x y, nth_error (amplitudes a) i = Some x ->
                  nth_error (amplitudes b) i = Some y ->
                  cabs (Csub (Cmul w x) y) <= tolerance.

(** Some amplitude of [a] has magnitude above [tolerance]. *)
Definition significant (tolerance : R) (a : StateVector) : Prop :=
  exists i x, nth_error (amplitudes a) i = Some x /\ tolerance < cabs x.

(** ** The notebook's own cells *)

(** [numpy.matmul] of a two-dimensional integer array (a list of rows) with a
    one-dimensional one: entry [i] is the dot product of row [i] with the
    vector; a row whose length differs from the vector's is a shape error
    ([ValueError]). *)
Definition dot (row v : list Z) : Z :=
  fold_right Z.add 0%Z (map (fun xy => (fst xy * snd xy)%Z) (combine row v)).

Definition matmul (M : list (list Z)) (v : list Z) : option (list Z) :=
  if forallb (fun row => Nat.eqb (length row) (length v)) M
  then Some (map (fun row => dot row v) M) else None.

(** [ket0 = array([1, 0])] *)
Definition ket0 : list Z := [1%Z; 0%Z].

(** [M = array([[0,1],[1,0]])] *)
Definition M : list (list Z) := [[0%Z; 1%Z]; [1%Z; 0%Z]].

Definition msg_zero : string := "The standard basis measurements yields the 0 state".
Definition msg_one : string := "The standard basis measurements yields the 1 state".

(** The cell [if v_measured[1].equiv(Statevector([1,0])): print(...) else:
    print(...)]: the line it prints for the post-measurement state. *)
Definition report_measurement (v_measured : StateVector) : result string :=
  match equivalent default_tolerance v_measured (mkSV [C1; C0]) with
  | Ok true => Ok msg_zero
  | Ok false => Ok msg_one
  | Err e => Err e
  end.

(** A random source that always yields [1/2]. *)
Definition half_source (n : nat) : R * nat := (/ 2, S n).

(** * Properties *)

(** ** Powers of two *)

Lemma pow2_pos (k : nat) : (0 < 2 ^ k)%nat.
Proof. apply Nat.neq_0_lt_0, Nat.pow_nonzero; lia. Qed.

Lemma is_power_of_two_spec (n : nat) :
  is_power_of_two n = true <-> exists k, n = (2 ^ k)%nat.
Proof.
  unfold is_power_of_two; rewrite andb_true_iff, Nat.ltb_lt, Nat.eqb_eq.
  split.
  - intros [Hpos Hland]. exists (Nat.log2 n).
    destruct (Nat.log2_spec n Hpos) as [Hlo Hhi].
    destruct (Nat.eq_dec n (2 ^ Nat.log2 n)) as [E | Hne]; [exact E | exfalso].
    assert (Hl : Nat.log2 (n - 1) = Nat.log2 n).
    { apply Nat.log2_unique; lia. }
    assert (Hb1 : Nat.testbit n (Nat.log2 n) = true) by (apply Nat.bit_log2; lia).
    assert (Hb2 : Nat.testbit (n - 1) (Nat.log2 n) = true).
    { rewrite <- Hl. apply Nat.bit_log2. pose proof (pow2_pos (Nat.log2 n)); lia. }
    pose proof (Nat.land_spec n (n - 1) (Nat.log2 n)) as Hs.
    rewrite Hland, Nat.bits_0, Hb1, Hb2 in Hs. discriminate.
  - intros [k ->]. split; [apply pow2_pos |].
    pose proof (pow2_pos k).
    replace (2 ^ k - 1)%nat with (Nat.ones k)
      by (rewrite Nat.ones_equiv; lia).
    rewrite Nat.land_ones. apply Nat.Div0.mod_same.
Qed.

(** ** Claim C5 *)

(** C5: [construct] fails with [DimensionError] exactly when the length of
    the amplitude sequence is not a power of two, and otherwise succeeds with
    the given amplitudes whatever their normalisation. *)
Theorem construct_fails_iff_not_power_of_two (amps : list C) :
  (construct amps = Err DimensionError <-> ~ exists k, length amps = (2 ^ k)%nat) /\
  ((exists k, length amps = (2 ^ k)%nat) -> construct amps = Ok (mkSV amps)).
Proof.
  unfold construct. rewrite <- is_power_of_two_spec.
  destruct (is_power_of_two (length amps)); split; try intros; try split;
    try discriminate; try congruence; auto.
Qed.

(** The length-one sequence is a power of two ([2 ^ 0]): it constructs a
    state of [0] qubits. *)
Lemma construct_length_one : construct [C1] = Ok (mkSV [C1]) /\ num_qubits (mkSV [C1]) = 0%nat.
Proof. split; reflexivity. Qed.

(** An unnormalised length-two sequence constructs. *)
Lemma construct_unnormalised : construct [mkC 2 0; mkC 2 0] = Ok (mkSV [mkC 2 0; mkC 2 0]).
Proof. reflexivity. Qed.

(** ** Claim C4 *)

Lemma default_tolerance_pos : 0 < default_tolerance.
Proof. unfold default_tolerance. lra. Qed.

Lemma is_valid_iff (tolerance : R) (s : StateVector) :
  0 < tolerance ->
  (is_valid tolerance s = Ok true <->
   Rabs (sumR (map norm2 (amplitudes s)) - 1) <= tolerance).
Proof.
  intro Ht. unfold is_valid. destruct (Rle_dec tolerance 0); [lra |].
  destruct (Rle_dec _ _); split; intros; auto; try discriminate; contradiction.
Qed.

Lemma is_valid_nonpos (tolerance : R) (s : StateVector) :
  tolerance <= 0 -> is_valid tolerance s = Err ArgumentError.
Proof.
  intro Ht. unfold is_valid. destruct (Rle_dec tolerance 0); [reflexivity | lra].
Qed.

Lemma inv_sqrt2_sq : / sqrt 2 * / sqrt 2 = / 2.
Proof.
  rewrite <- Rinv_mult, sqrt_sqrt; lra.
Qed.

(** C4 (as amended): for every tolerance [> 0], [is_valid tolerance] is
    [true] exactly when the squared magnitudes sum to 1 within [tolerance];
    for every tolerance [<= 0] it fails with [ArgumentError]; at the default
    tolerance it is false for the state of [[0.5, 3.0j]] and true for the
    state of [[1/sqrt 2, 1/sqrt 2]]. *)
Theorem is_valid_spec :
  (forall tolerance s, 0 < tolerance ->
     (is_valid tolerance s = Ok true <->
      Rabs (sumR (map norm2 (amplitudes s)) - 1) <= tolerance)) /\
  (forall tolerance s, tolerance <= 0 -> is_valid tolerance s = Err ArgumentError) /\
  (exists s, construct [mkC (1/2) 0; mkC 0 3] = Ok s /\
             is_valid default_tolerance s = Ok false) /\
  (exists s, construct [mkC (/ sqrt 2) 0; mkC (/ sqrt 2) 0] = Ok s /\
             is_valid default_tolerance s = Ok true).
Proof.
  split; [intros t s0 Ht; exact (is_valid_iff t s0 Ht) |].
  split; [intros t s0 Ht; exact (is_valid_nonpos t s0 Ht) |]. split.
  - eexists; split; [reflexivity |].
    unfold is_valid, default_tolerance, sumR, norm2; simpl.
    destruct (Rle_dec _ 0); [lra |].
    destruct (Rle_dec _ _) as [H |]; [exfalso | reflexivity].
    rewrite Rabs_right in H; lra.
  - eexists; split; [reflexivity |].
    apply (is_valid_iff _ _ default_tolerance_pos).
    unfold default_tolerance, sumR, norm2; simpl.
    rewrite inv_sqrt2_sq.
    replace (/ 2 + 0 * 0 + (/ 2 + 0 * 0 + 0) - 1) with 0 by lra.
    rewrite Rabs_R0; lra.
Qed.

(** C4 as stated fails at a non-positive tolerance: at tolerance [0] the
    state of [[1, 0]] sums to exactly 1, yet [is_valid 0] fails with
    [ArgumentError] instead of returning [true]. *)
Lemma is_valid_zero_tolerance :
  Rabs (sumR (map norm2 (amplitudes (mkSV [C1; C0]))) - 1) <= 0 /\
  is_valid 0 (mkSV [C1; C0]) = Err ArgumentError /\
  ~ (forall tolerance s, is_valid tolerance s = Ok true <->
       Rabs (sumR (map norm2 (amplitudes s)) - 1) <= tolerance).
Proof.
  assert (Hs : Rabs (sumR (map norm2 (amplitudes (mkSV [C1; C0]))) - 1) <= 0).
  { unfold sumR, norm2; simpl.
    replace (1 * 1 + 0 * 0 + (0 * 0 + 0 * 0 + 0) - 1) with 0 by lra.
    rewrite Rabs_R0; lra. }
  assert (He : is_valid 0 (mkSV [C1; C0]) = Err ArgumentError)
    by (apply is_valid_nonpos; lra).
  split; [exact Hs |]. split; [exact He |].
  intro Hall. apply (Hall 0 (mkSV [C1; C0])) in Hs. rewrite He in Hs. discriminate.
Qed.

(** ** Claims C6 and C7 *)

Lemma construct_ok_shape (amps : list C) (s : StateVector) :
  construct amps = Ok s ->
  amplitudes s = amps /\ length amps = (2 ^ num_qubits s)%nat.
Proof.
  unfold construct. destruct (is_power_of_two (length amps)) eqn:E;
    intro H; inversion H; subst; clear H.
  apply is_power_of_two_spec in E as [k Hk].
  split; [reflexivity |]. unfold num_qubits; simpl.
  rewrite Hk, Nat.log2_pow2; lia.
Qed.

(** C6: for a constructed state, normalised or not, [probabilities] has
    length [2 ^ n] and its entry [i] is the squared magnitude of
    [amplitude_at i]; it is a total function, so it cannot fail. *)
Theorem probabilities_spec (amps : list C) (s : StateVector)
  (H : construct amps = Ok s) :
  length (probabilities s) = (2 ^ num_qubits s)%nat /\
  forall i, (i < 2 ^ num_qubits s)%nat ->
    exists a, amplitude_at s i = Ok a /\
              nth_error (probabilities s) i = Some (norm2 a).
Proof.
  destruct (construct_ok_shape _ _ H) as [Ha Hl].
  unfold probabilities. rewrite length_map, Ha. split; [exact Hl |].
  intros i Hi. unfold amplitude_at. rewrite Ha.
  destruct (nth_error amps i) as [a |] eqn:E.
  - exists a. split; [reflexivity |]. rewrite nth_error_map, E. reflexivity.
  - apply nth_error_None in E. lia.
Qed.

Lemma probabilities_spec_witness :
  construct [mkC 2 0; mkC 0 1] = Ok (mkSV [mkC 2 0; mkC 0 1]) /\
  length (probabilities (mkSV [mkC 2 0; mkC 0 1])) =
    (2 ^ num_qubits (mkSV [mkC 2 0; mkC 0 1]))%nat.
Proof.
  split; [reflexivity |].
  exact (proj1 (probabilities_spec [mkC 2 0; mkC 0 1] _ eq_refl)).
Defined.

(** C7: when [is_valid tolerance] holds, the probabilities sum to 1 within
    [tolerance]. *)
Theorem probabilities_sum_valid (tolerance : R) (s : StateVector)
  (H : is_valid tolerance s = Ok true) :
  Rabs (sumR (probabilities s) - 1) <= tolerance.
Proof.
  unfold is_valid in H. destruct (Rle_dec tolerance 0); [discriminate |].
  destruct (Rle_dec _ _) as [Hle |]; [exact Hle | discriminate].
Qed.

Lemma probabilities_sum_valid_witness :
  is_valid default_tolerance (mkSV [C1; C0]) = Ok true /\
  Rabs (sumR (probabilities (mkSV [C1; C0])) - 1) <= default_tolerance.
Proof.
  assert (Hv : is_valid default_tolerance (mkSV [C1; C0]) = Ok true).
  { apply (is_valid_iff _ _ default_tolerance_pos). unfold sumR, norm2, default_tolerance; simpl.
    replace (1 * 1 + 0 * 0 + (0 * 0 + 0 * 0 + 0) - 1) with 0 by lra.
    rewrite Rabs_R0; lra. }
  split; [exact Hv | exact (probabilities_sum_valid _ _ Hv)].
Defined.

(** ** Labels *)

Lemma label_length (n i : nat) : String.length (label n i) = n.
Proof. induction n; simpl; auto. Qed.

Lemma label_get (n i j : nat) :
  (j < n)%nat ->
  String.get j (label n i) = Some (bit_char (Nat.testbit i (n - 1 - j))).
Proof.
  revert j. induction n as [| m IH]; intros j Hj; [lia |].
  destruct j as [| j']; simpl.
  - do 3 f_equal. lia.
  - rewrite IH by lia. do 3 f_equal. lia.
Qed.

Lemma bit_char_inj (a b : bool) : bit_char a = bit_char b -> a = b.
Proof. destruct a, b; simpl; congruence. Qed.

Lemma label_bits (n i j : nat) :
  label n i = label n j -> forall m, (m < n)%nat -> Nat.testbit i m = Nat.testbit j m.
Proof.
  induction n as [| n IH]; intros Heq m Hm; [lia |].
  simpl in Heq. injection Heq as Hc Ht.
  destruct (Nat.eq_dec m n) as [-> | Hne].
  - apply bit_char_inj. exact Hc.
  - apply IH; [exact Ht | lia].
Qed.

Lemma testbit_high (i n m : nat) :
  (i < 2 ^ n)%nat -> (n <= m)%nat -> Nat.testbit i m = false.
Proof.
  intros Hi Hm. destruct (Nat.eq_dec i 0) as [-> | Hne]; [apply Nat.bits_0 |].
  apply Nat.bits_above_log2.
  apply (Nat.log2_lt_pow2 i n) in Hi; lia.
Qed.

Lemma label_inj (n i j : nat) :
  (i < 2 ^ n)%nat -> (j < 2 ^ n)%nat -> label n i = label n j -> i = j.
Proof.
  intros Hi Hj Heq. apply Nat.bits_inj. intro m.
  destruct (Nat.lt_ge_cases m n) as [Hm | Hm].
  - apply (label_bits n); assumption.
  - rewrite (testbit_high i n m), (testbit_high j n m); auto.
Qed.

Lemma lookup_labels {A} (n : nat) (f : nat -> A) (a len i : nat) :
  (a <= i < a + len)%nat -> (a + len <= 2 ^ n)%nat ->
  lookup (label n i) (map (fun j => (label n j, f j)) (seq a len)) = Some (f i).
Proof.
  revert a. induction len as [| len IH]; intros a Hi Hb; [lia |].
  simpl. destruct (String.eqb_spec (label n i) (label n a)) as [E | E].
  - apply label_inj in E; [subst; reflexivity | lia | lia].
  - apply IH; [| lia]. destruct (Nat.eq_dec i a); [subst; congruence | lia].
Qed.

(** ** Claim C8 *)

Lemma inv_sqrt2_norm2 (x : R) : x = / sqrt 2 \/ x = - / sqrt 2 ->
  norm2 (mkC x 0) = / 2.
Proof.
  unfold norm2; simpl. intros [-> | ->];
    [| rewrite Rmult_opp_opp]; rewrite inv_sqrt2_sq; lra.
Qed.

(** C8: for a constructed state on [n] qubits, [probabilities_as_labels]
    maps the [n]-bit label of each index [i < 2 ^ n] to [p_i], the label
    being [n] characters long with the most significant bit first; for the
    state of [[1/sqrt 2, -1/sqrt 2]] it is [{"0": 0.5, "1": 0.5}]. *)
Theorem probabilities_as_labels_spec :
  (forall amps s, construct amps = Ok s ->
   forall i, (i < 2 ^ num_qubits s)%nat ->
     lookup (label (num_qubits s) i) (probabilities_as_labels s) =
       Some (nth i (probabilities s) 0) /\
     String.length (label (num_qubits s) i) = num_qubits s /\
     forall j, (j < num_qubits s)%nat ->
       String.get j (label (num_qubits s) i) =
         Some (bit_char (Nat.testbit i (num_qubits s - 1 - j)))) /\
  (exists s, construct [mkC (/ sqrt 2) 0; mkC (- / sqrt 2) 0] = Ok s /\
             probabilities_as_labels s = [("0"%string, / 2); ("1"%string, / 2)]).
Proof.
  split.
  - intros amps s H i Hi.
    destruct (construct_ok_shape _ _ H) as [Ha Hl].
    split; [| split; [apply label_length | intros; apply label_get; assumption]].
    unfold probabilities_as_labels.
    apply (lookup_labels (num_qubits s) (fun j => nth j (probabilities s) 0));
      unfold probabilities; rewrite length_map, Ha; lia.
  - eexists; split; [reflexivity |].
    unfold probabilities_as_labels, probabilities; simpl.
    rewrite !inv_sqrt2_norm2 by auto. reflexivity.
Qed.

Lemma probabilities_as_labels_spec_witness :
  construct [C1; C0] = Ok (mkSV [C1; C0]) /\
  lookup "1"%string (probabilities_as_labels (mkSV [C1; C0])) =
    Some (nth 1 (probabilities (mkSV [C1; C0])) 0).
Proof.
  split; [reflexivity |].
  exact (proj1 (proj1 probabilities_as_labels_spec [C1; C0] _ eq_refl 1%nat
                  ltac:(simpl; lia))).
Defined.

(** ** Inverse-CDF selection *)

Lemma select_from_spec (ps : list R) (acc : R) (k0 : nat) (u : R) :
  ps <> [] ->
  let k := select_from ps acc k0 u in
  (k0 <= k < k0 + length ps)%nat /\
  (forall j, (k0 <= j < k)%nat -> acc + cumulative ps (j - k0) <= u) /\
  (k = (k0 + length ps - 1)%nat \/ u < acc + cumulative ps (k - k0)).
Proof.
  revert acc k0. induction ps as [| p rest IH]; intros acc k0 Hne; [congruence |].
  destruct rest as [| q rest'].
  - simpl. split; [lia |]. split; [intros; lia | left; lia].
  - cbv zeta.
    change (select_from (p :: q :: rest') acc k0 u) with
      (if Rlt_dec u (acc + p) then k0
       else select_from (q :: rest') (acc + p) (S k0) u).
    destruct (Rlt_dec u (acc + p)) as [Hlt | Hge].
    + split; [simpl; lia |]. split; [intros; lia |].
      right. unfold cumulative. rewrite Nat.sub_diag. simpl. lra.
    + destruct (IH (acc + p) (S k0) ltac:(discriminate)) as [Hb [Hj Hl]].
      set (k := select_from (q :: rest') (acc + p) (S k0) u) in *.
      split; [simpl in *; lia |]. split.
      * intros j Hj'. destruct (Nat.eq_dec j k0) as [-> | Hne'].
        -- unfold cumulative. rewrite Nat.sub_diag. simpl. lra.
        -- specialize (Hj j ltac:(lia)).
           replace (j - k0)%nat with (S (j - S k0)) by lia.
           unfold cumulative in *. rewrite firstn_cons. simpl sumR in *. lra.
      * destruct Hl as [Hl | Hl]; [left; simpl in *; lia | right].
        replace (k - k0)%nat with (S (k - S k0)) by lia.
        unfold cumulative in *. rewrite firstn_cons. simpl sumR in *. lra.
Qed.

Lemma valid_nonempty (s : StateVector) :
  is_valid default_tolerance s = Ok true -> amplitudes s <> [].
Proof.
  intros H E. apply (is_valid_iff _ _ default_tolerance_pos) in H. rewrite E in H.
  unfold sumR, default_tolerance in H; simpl in H.
  rewrite Rabs_left in H; lra.
Qed.

Lemma select_index_spec (s : StateVector) (u : R) :
  amplitudes s <> [] ->
  let k := select_index s u in
  (k < length (amplitudes s))%nat /\
  (forall j, (j < k)%nat -> cumulative (probabilities s) j <= u) /\
  (k = (length (amplitudes s) - 1)%nat \/ u < cumulative (probabilities s) k).
Proof.
  intros Hne. unfold select_index.
  assert (Hp : probabilities s <> []).
  { unfold probabilities. destruct (amplitudes s); simpl; congruence. }
  destruct (select_from_spec _ 0 0 u Hp) as [Hb [Hj Hl]].
  assert (Hlen : length (probabilities s) = length (amplitudes s))
    by (apply length_map).
  rewrite Hlen in *. cbv zeta.
  split; [lia |]. split.
  - intros j Hj'. specialize (Hj j ltac:(lia)). rewrite Nat.sub_0_r in Hj. lra.
  - destruct Hl as [Hl | Hl]; [left; lia | right]. rewrite Nat.sub_0_r in Hl. lra.
Qed.

(** ** Collapse *)

Lemma collapse_length (s : StateVector) (k : nat) :
  length (amplitudes (collapse_to s k)) = length (amplitudes s).
Proof. simpl. rewrite length_map, length_seq. reflexivity. Qed.

Lemma collapse_amplitude (s : StateVector) (k j : nat) :
  (j < length (amplitudes s))%nat ->
  amplitude_at (collapse_to s k) j = Ok (if Nat.eqb j k then C1 else C0).
Proof.
  intros Hj. unfold amplitude_at, collapse_to; simpl.
  rewrite nth_error_map, nth_error_seq.
  destruct (Nat.ltb_spec j (length (amplitudes s))); [reflexivity | lia].
Qed.

Lemma collapse_probabilities (s : StateVector) (k : nat) :
  probabilities (collapse_to s k) =
  map (fun j => if Nat.eqb j k then 1 else 0) (seq 0 (length (amplitudes s))).
Proof.
  unfold probabilities, collapse_to; simpl. rewrite map_map.
  apply map_ext. intro j. destruct (Nat.eqb j k); unfold norm2; simpl; ring.
Qed.

Lemma collapse_idem (s : StateVector) (k : nat) :
  collapse_to (collapse_to s k) k = collapse_to s k.
Proof. unfold collapse_to at 1. rewrite collapse_length. reflexivity. Qed.

(** ** Claim C1 *)

(** C1 (as amended): [measure_once] fails with [InvalidStateError], without
    drawing, exactly when the state is not valid; otherwise, for the drawn
    [u], it selects the smallest index [k] with [u < c_k], the last
    cumulative value being taken as exactly 1 (so the last index is selected
    when no earlier [c_j] exceeds [u]), and returns the label of [k] with
    [collapse_to k]: amplitude exactly [1+0j] at [k] and [0] at every other
    index. *)
Theorem measure_once_spec {G} (uniform : G -> R * G) (s : StateVector)
  (g g' : G) (u : R) (Hg : uniform g = (u, g')) :
  (is_valid default_tolerance s = Ok false ->
   measure_once uniform s g = (Err InvalidStateError, g)) /\
  (is_valid default_tolerance s = Ok true ->
   exists k,
     measure_once uniform s g =
       (Ok (label (num_qubits s) k, collapse_to s k), g') /\
     (k < length (amplitudes s))%nat /\
     (forall j, (j < k)%nat -> cumulative (probabilities s) j <= u) /\
     (u < cumulative (probabilities s) k \/
      k = (length (amplitudes s) - 1)%nat) /\
     amplitude_at (collapse_to s k) k = Ok C1 /\
     (forall j, j <> k -> (j < length (amplitudes s))%nat ->
        amplitude_at (collapse_to s k) j = Ok C0) /\
     length (amplitudes (collapse_to s k)) = length (amplitudes s)).
Proof.
  unfold measure_once. split; intros Hv; rewrite Hv; [reflexivity |].
  rewrite Hg. exists (select_index s u).
  destruct (select_index_spec s u (valid_nonempty s Hv)) as [Hk [Hj Hl]].
  split; [reflexivity |]. split; [exact Hk |]. split; [exact Hj |].
  split; [destruct Hl; [right | left]; assumption |].
  split; [rewrite collapse_amplitude, Nat.eqb_refl by exact Hk; reflexivity |].
  split; [| apply collapse_length].
  intros j Hne Hj'. rewrite collapse_amplitude by exact Hj'.
  apply Nat.eqb_neq in Hne. rewrite Hne. reflexivity.
Qed.

Lemma valid_basis0 : is_valid default_tolerance (mkSV [C1; C0]) = Ok true.
Proof.
  apply (is_valid_iff _ _ default_tolerance_pos). unfold sumR, norm2, default_tolerance; simpl.
  replace (1 * 1 + 0 * 0 + (0 * 0 + 0 * 0 + 0) - 1) with 0 by lra.
  rewrite Rabs_R0; lra.
Qed.

Lemma measure_once_spec_witness :
  list_source [/ 2] = (/ 2, []) /\
  exists k, measure_once list_source (mkSV [C1; C0]) [/ 2] =
              (Ok (label 1 k, collapse_to (mkSV [C1; C0]) k), []) /\
            (k < 2)%nat.
Proof.
  split; [reflexivity |].
  destruct (measure_once_spec list_source (mkSV [C1; C0]) [/ 2] [] (/ 2) eq_refl)
    as [_ Hok].
  destruct (Hok valid_basis0) as [k [Hm [Hk _]]].
  exists k. split; [exact Hm | exact Hk].
Defined.

(** C1 as stated fails: a valid state whose probabilities sum to
    [0.999999998000000001] and the draw [u = 0.9999999999] in [[0,1)]: no
    cumulative sum exceeds [u], and [measure_once] returns the last label
    ["1"], whose probability is [0]. *)
Lemma measure_once_no_cumulative_exceeds :
  let s := mkSV [mkC (999999999 / 1000000000) 0; C0] in
  let u := 9999999999 / 10000000000 in
  is_valid default_tolerance s = Ok true /\ 0 <= u < 1 /\
  (forall k, (k < length (amplitudes s))%nat ->
     ~ u < cumulative (probabilities s) k) /\
  measure_once list_source s [u] = (Ok ("1"%string, collapse_to s 1), []).
Proof.
  cbv zeta.
  assert (Hv : is_valid default_tolerance
                 (mkSV [mkC (999999999 / 1000000000) 0; C0]) = Ok true).
  { apply (is_valid_iff _ _ default_tolerance_pos). unfold sumR, norm2, default_tolerance; simpl.
    unfold Rabs; destruct (Rcase_abs _); lra. }
  split; [exact Hv |]. split; [lra |]. split.
  - intros k Hk. simpl in Hk.
    destruct k as [| [| k]]; [| | lia];
      unfold cumulative, probabilities, norm2; simpl; lra.
  - unfold measure_once. rewrite Hv. simpl.
    unfold select_index, probabilities, norm2; simpl.
    destruct (Rlt_dec _ _); [lra | reflexivity].
Qed.

(** ** The collapsed state *)

Lemma select_from_cons (p : R) (l : list R) (acc : R) (k : nat) (u : R) :
  l <> [] ->
  select_from (p :: l) acc k u =
  if Rlt_dec u (acc + p) then k else select_from l (acc + p) (S k) u.
Proof. destruct l; [congruence | reflexivity]. Qed.

Lemma select_from_indicator (len a k : nat) (acc u : R) :
  acc = 0 -> 0 <= u < 1 -> (a <= k < a + len)%nat ->
  select_from (map (fun j => if Nat.eqb j k then 1 else 0) (seq a len)) acc a u = k.
Proof.
  revert a acc. induction len as [| len IH]; intros a acc Hacc Hu Hk; [lia |].
  destruct len as [| len'].
  - simpl. lia.
  - change (seq a (S (S len'))) with (a :: seq (S a) (S len')).
    rewrite map_cons, select_from_cons by (simpl; discriminate).
    destruct (Nat.eqb_spec a k) as [-> | Hne].
    + destruct (Rlt_dec _ _); [reflexivity | lra].
    + destruct (Rlt_dec _ _); [lra |].
      apply IH; [lra | exact Hu | lia].
Qed.

Lemma sum_indicator (len a k : nat) :
  sumR (map (fun j => if Nat.eqb j k then 1 else 0) (seq a len)) =
  if ((a <=? k) && (k <? a + len))%nat then 1 else 0.
Proof.
  revert a. induction len as [| len IH]; intro a.
  - simpl. destruct (Nat.leb_spec a k), (Nat.ltb_spec k (a + 0));
      simpl; reflexivity || lia.
  - cbn [seq map]. unfold sumR in *. cbn [fold_right]. rewrite IH.
    destruct (Nat.eqb_spec a k) as [-> | Hne].
    + rewrite Nat.leb_refl, (proj2 (Nat.ltb_lt k (k + S len))) by lia.
      destruct (Nat.leb_spec (S k) k); [lia |]. simpl. ring.
    + destruct (Nat.leb_spec a k), (Nat.ltb_spec k (a + S len)),
               (Nat.leb_spec (S a) k), (Nat.ltb_spec k (S a + len));
        simpl; try ring; lia.
Qed.

Lemma collapse_sum (s : StateVector) (k : nat) :
  (k < length (amplitudes s))%nat -> sumR (probabilities (collapse_to s k)) = 1.
Proof.
  intro Hk. rewrite collapse_probabilities, sum_indicator.
  destruct (Nat.leb_spec 0 k), (Nat.ltb_spec k (0 + length (amplitudes s)));
    simpl; lia || reflexivity.
Qed.

Lemma collapse_valid (s : StateVector) (k : nat) (tolerance : R) :
  0 < tolerance -> (k < length (amplitudes s))%nat ->
  is_valid tolerance (collapse_to s k) = Ok true.
Proof.
  intros Ht Hk. apply (is_valid_iff _ _ Ht).
  change (map norm2 (amplitudes (collapse_to s k))) with
    (probabilities (collapse_to s k)).
  rewrite collapse_sum by exact Hk.
  replace (1 - 1) with 0 by ring. rewrite Rabs_R0. lra.
Qed.

Lemma collapse_select (s : StateVector) (k : nat) (u : R) :
  0 <= u < 1 -> (k < length (amplitudes s))%nat ->
  select_index (collapse_to s k) u = k.
Proof.
  intros Hu Hk. unfold select_index. rewrite collapse_probabilities.
  apply select_from_indicator; [reflexivity | exact Hu | lia].
Qed.

Lemma collapse_num_qubits (s : StateVector) (k : nat) :
  num_qubits (collapse_to s k) = num_qubits s.
Proof. unfold num_qubits. rewrite collapse_length. reflexivity. Qed.

(** ** Counts *)

Lemma incr_keys (l : string) (counts : list (string * nat)) (P : string -> Prop) :
  P l -> Forall (fun kc => P (fst kc)) counts ->
  Forall (fun kc => P (fst kc)) (incr l counts).
Proof.
  intros Hl Hc. induction Hc as [| [k c] rest Hk Hrest IH]; simpl.
  - constructor; [exact Hl | constructor].
  - destruct (String.eqb l k); constructor; auto.
Qed.

Lemma incr_positive (l : string) (counts : list (string * nat)) :
  Forall (fun kc => (0 < snd kc)%nat) counts ->
  Forall (fun kc => (0 < snd kc)%nat) (incr l counts).
Proof.
  intros Hc. induction Hc as [| [k c] rest Hk Hrest IH]; simpl.
  - constructor; [simpl; lia | constructor].
  - destruct (String.eqb l k); constructor; simpl in *; auto; lia.
Qed.

Lemma incr_sum (l : string) (counts : list (string * nat)) :
  sum_counts (incr l counts) = S (sum_counts counts).
Proof.
  induction counts as [| [k c] rest IH]; [reflexivity |].
  simpl incr. destruct (String.eqb l k); [reflexivity |].
  change (sum_counts ((k, c) :: incr l rest)) with (c + sum_counts (incr l rest))%nat.
  change (sum_counts ((k, c) :: rest)) with (c + sum_counts rest)%nat.
  rewrite IH. lia.
Qed.

Lemma incr_in_keys (l k : string) (counts : list (string * nat)) :
  In k (map fst (incr l counts)) -> k = l \/ In k (map fst counts).
Proof.
  induction counts as [| [k' c] rest IH]; simpl.
  - intros [-> | []]. left; reflexivity.
  - destruct (String.eqb l k'); simpl; [tauto |].
    intros [-> | H]; [tauto |]. destruct (IH H); tauto.
Qed.

Lemma incr_nodup (l : string) (counts : list (string * nat)) :
  NoDup (map fst counts) -> NoDup (map fst (incr l counts)).
Proof.
  induction counts as [| [k c] rest IH]; simpl; intro Hnd.
  - constructor; [intros [] | constructor].
  - inversion Hnd as [| ? ? Hnotin Hnd']; subst.
    destruct (String.eqb_spec l k) as [-> | Hne]; simpl; [exact Hnd |].
    constructor; [| apply IH; exact Hnd'].
    intro Hin. apply incr_in_keys in Hin as [-> | Hin]; [congruence | contradiction].
Qed.

Section Loop.

Variable G : Type.
Variable uniform : G -> R * G.

Lemma shots_loop_tally (s : StateVector) (m : nat) (g : G)
      (counts : list (string * nat)) :
  fst (shots_loop uniform s m g counts) =
  fold_left (fun acc l => incr l acc)
            (map (fun u => label (num_qubits s) (select_index s u))
                 (draws uniform m g)) counts.
Proof.
  revert g counts. induction m as [| m IH]; intros g counts; simpl; [reflexivity |].
  destruct (uniform g) as [u g']. simpl. apply IH.
Qed.

Lemma draws_length (m : nat) (g : G) : length (draws uniform m g) = m.
Proof.
  revert g. induction m as [| m IH]; intro g; simpl; [reflexivity |].
  destruct (uniform g) as [u g']. simpl. rewrite IH. reflexivity.
Qed.

End Loop.

Lemma fold_incr_props (labels : list string) (counts : list (string * nat)) :
  Forall (fun kc => (0 < snd kc)%nat) counts -> NoDup (map fst counts) ->
  let r := fold_left (fun acc l => incr l acc) labels counts in
  Forall (fun kc => (0 < snd kc)%nat) r /\ NoDup (map fst r) /\
  sum_counts r = (length labels + sum_counts counts)%nat.
Proof.
  revert counts. induction labels as [| l rest IH]; intros counts Hp Hn; simpl.
  - auto.
  - destruct (IH (incr l counts) (incr_positive _ _ Hp) (incr_nodup _ _ Hn))
      as [H1 [H2 H3]].
    split; [exact H1 |]. split; [exact H2 |]. rewrite H3, incr_sum. lia.
Qed.

Lemma fold_incr_keys (labels : list string) (counts : list (string * nat))
      (P : string -> Prop) :
  Forall P labels -> Forall (fun kc => P (fst kc)) counts ->
  Forall (fun kc => P (fst kc)) (fold_left (fun acc l => incr l acc) labels counts).
Proof.
  intros Hl. revert counts. induction Hl as [| l rest Hl Hrest IH]; intros counts Hc;
    simpl; [exact Hc |].
  apply IH, incr_keys; assumption.
Qed.

Lemma constructed_nonempty (amps : list C) (s : StateVector) :
  construct amps = Ok s -> amplitudes s <> [].
Proof.
  intros H E. destruct (construct_ok_shape _ _ H) as [Ha Hl].
  pose proof (pow2_pos (num_qubits s)). rewrite <- Ha, E in Hl. simpl in Hl. lia.
Qed.

Lemma constructed_label (amps : list C) (s : StateVector) (u : R) :
  construct amps = Ok s ->
  (select_index s u < 2 ^ num_qubits s)%nat.
Proof.
  intros H. destruct (construct_ok_shape _ _ H) as [Ha Hl].
  destruct (select_index_spec s u (constructed_nonempty _ _ H)) as [Hk _].
  rewrite Ha, Hl in Hk. exact Hk.
Qed.

(** ** Claim C10 *)

(** C10: for a constructed state on [n] qubits, the label returned by
    [measure_once] (and every key of [sample_counts]) is the [n]-character
    label [label n k] of an index [k < 2 ^ n], the format of
    [probabilities_as_labels]; the collapsed state is exactly normalised,
    hence valid, and measuring it again returns the same label and state for
    every draw in [[0,1)]. *)
Theorem measurement_labels_and_collapse (amps : list C) (s : StateVector)
  (H : construct amps = Ok s) :
  (forall (G : Type) (uniform : G -> R * G) g lab s' g',
     measure_once uniform s g = (Ok (lab, s'), g') ->
     String.length lab = num_qubits s /\
     (exists k, (k < 2 ^ num_qubits s)%nat /\ lab = label (num_qubits s) k /\
                s' = collapse_to s k) /\
     sumR (probabilities s') = 1 /\
     is_valid default_tolerance s' = Ok true /\
     forall g0 u g0', uniform g0 = (u, g0') -> 0 <= u < 1 ->
       measure_once uniform s' g0 = (Ok (lab, s'), g0')) /\
  (forall (G : Type) (uniform : G -> R * G) shots g counts g',
     sample_counts uniform s shots g = (Ok counts, g') ->
     Forall (fun kc => String.length (fst kc) = num_qubits s /\
                       exists k, (k < 2 ^ num_qubits s)%nat /\
                                 fst kc = label (num_qubits s) k) counts).
Proof.
  destruct (construct_ok_shape _ _ H) as [Ha Hl].
  assert (Hdt : 0 < default_tolerance) by (unfold default_tolerance; lra).
  split.
  - intros G uniform g lab s' g' Hm. unfold measure_once in Hm.
    destruct (is_valid default_tolerance s) as [[|] | e] eqn:Hv; try discriminate.
    destruct (uniform g) as [u g1] eqn:Hg. injection Hm as <- <- <-.
    pose proof (constructed_label _ _ u H) as Hk.
    assert (Hk' : (select_index s u < length (amplitudes s))%nat)
      by (rewrite Ha, Hl; exact Hk).
    split; [apply label_length |].
    split; [eexists; split; [exact Hk | split; reflexivity] |].
    split; [apply collapse_sum; exact Hk' |].
    split; [apply collapse_valid; assumption |].
    intros g0 u0 g0' Hg0 Hu0. unfold measure_once.
    rewrite collapse_valid by assumption. rewrite Hg0.
    rewrite collapse_select, collapse_num_qubits, collapse_idem by assumption.
    reflexivity.
  - intros G uniform shots g counts g' Hs. unfold sample_counts in Hs.
    destruct (is_valid default_tolerance s) as [[|] | e]; try discriminate.
    destruct (shots <? 0)%Z; [discriminate |].
    destruct (shots_loop uniform s (Z.to_nat shots) g []) as [c g1] eqn:E.
    injection Hs as <- <-.
    pose proof (shots_loop_tally G uniform s (Z.to_nat shots) g []) as Ht.
    rewrite E in Ht. simpl in Ht. rewrite Ht.
    apply (fold_incr_keys _ _ (fun l => String.length l = num_qubits s /\
             exists k, (k < 2 ^ num_qubits s)%nat /\ l = label (num_qubits s) k));
      [| constructor].
    apply Forall_forall. intros l Hin. apply in_map_iff in Hin as [u [<- _]].
    split; [apply label_length |].
    eexists; split; [apply (constructed_label _ _ u H) | reflexivity].
Qed.

Lemma measurement_labels_and_collapse_witness :
  construct [C1; C0] = Ok (mkSV [C1; C0]) /\
  forall lab s' g',
    measure_once list_source (mkSV [C1; C0]) [/ 2] = (Ok (lab, s'), g') ->
    String.length lab = 1%nat.
Proof.
  split; [reflexivity |]. intros lab s' g' Hm.
  exact (proj1 (proj1 (measurement_labels_and_collapse [C1; C0] _ eq_refl)
                  (list R) list_source [/ 2] lab s' g' Hm)).
Defined.

(** ** Claim C2 *)

(** C2: [sample_counts] fails with [InvalidStateError] on an invalid state
    (checked first) and with [ArgumentError] on a valid state when
    [shots < 0]; otherwise it tallies the labels of [shots] draws, each
    selected on the same, unmodified state from the next value of the random
    source, and the counts mapping has distinct labels, only positive counts
    and counts summing to exactly [shots]. *)
Theorem sample_counts_spec {G} (uniform : G -> R * G) (s : StateVector)
  (shots : Z) (g : G) :
  (is_valid default_tolerance s = Ok false ->
   sample_counts uniform s shots g = (Err InvalidStateError, g)) /\
  (is_valid default_tolerance s = Ok true -> (shots < 0)%Z ->
   sample_counts uniform s shots g = (Err ArgumentError, g)) /\
  (is_valid default_tolerance s = Ok true -> (0 <= shots)%Z ->
   exists counts g',
     sample_counts uniform s shots g = (Ok counts, g') /\
     length (draws uniform (Z.to_nat shots) g) = Z.to_nat shots /\
     counts = tally (map (fun u => label (num_qubits s) (select_index s u))
                         (draws uniform (Z.to_nat shots) g)) /\
     Forall (fun kc => (0 < snd kc)%nat) counts /\
     NoDup (map fst counts) /\
     sum_counts counts = Z.to_nat shots).
Proof.
  unfold sample_counts. split; [intros Hv; rewrite Hv; reflexivity |].
  split; [intros Hv Hs; rewrite Hv; simpl; apply Z.ltb_lt in Hs; rewrite Hs; reflexivity |].
  intros Hv Hs. rewrite Hv. simpl.
  destruct (Z.ltb_spec shots 0) as [Hlt | _]; [lia |].
  destruct (shots_loop uniform s (Z.to_nat shots) g []) as [c g1] eqn:E.
  pose proof (shots_loop_tally G uniform s (Z.to_nat shots) g []) as Ht.
  rewrite E in Ht. simpl in Ht.
  exists c, g1. split; [reflexivity |].
  split; [apply draws_length |]. split; [exact Ht |].
  destruct (fold_incr_props
              (map (fun u => label (num_qubits s) (select_index s u))
                   (draws uniform (Z.to_nat shots) g)) []
              (Forall_nil _) (NoDup_nil _)) as [H1 [H2 H3]].
  rewrite Ht. split; [exact H1 |]. split; [exact H2 |].
  rewrite H3, length_map, draws_length. simpl. lia.
Qed.

Lemma sample_counts_spec_witness :
  exists counts g',
    sample_counts list_source (mkSV [C1; C0]) 2 [/ 2; / 2] = (Ok counts, g') /\
    sum_counts counts = 2%nat.
Proof.
  destruct (proj2 (proj2 (sample_counts_spec list_source (mkSV [C1; C0]) 2 [/ 2; / 2]))
              valid_basis0 ltac:(lia)) as [counts [g' [H1 [_ [_ [_ [_ H2]]]]]]].
  exists counts, g'. split; [exact H1 | exact H2].
Defined.

(** ** Claim C9 *)

Lemma sample_counts_result {G} (uniform : G -> R * G) (s : StateVector)
  (shots : Z) (g : G) :
  fst (sample_counts uniform s shots g) =
  match is_valid default_tolerance s with
  | Err e => Err e
  | Ok false => Err InvalidStateError
  | Ok true =>
      if (shots <? 0)%Z then Err ArgumentError
      else Ok (tally (map (fun u => label (num_qubits s) (select_index s u))
                          (draws uniform (Z.to_nat shots) g)))
  end.
Proof.
  unfold sample_counts.
  destruct (is_valid default_tolerance s) as [[|] | e]; try reflexivity.
  destruct (shots <? 0)%Z; [reflexivity |].
  pose proof (shots_loop_tally G uniform s (Z.to_nat shots) g []) as Ht.
  destruct (shots_loop uniform s (Z.to_nat shots) g []) as [c g1].
  simpl in *. rewrite Ht. reflexivity.
Qed.

(** C9: every operation is a function of its inputs: on states with equal
    amplitudes, [is_valid] and [probabilities] agree, [measure_once] and
    [sample_counts] agree on equal random-source states, and their outcomes
    depend on the source only through the uniform values it yields. *)
Theorem operations_deterministic (tolerance : R) (s1 s2 : StateVector)
  (Hs : amplitudes s1 = amplitudes s2) :
  is_valid tolerance s1 = is_valid tolerance s2 /\
  probabilities s1 = probabilities s2 /\
  (forall (G : Type) (uniform : G -> R * G) g shots,
     measure_once uniform s1 g = measure_once uniform s2 g /\
     sample_counts uniform s1 shots g = sample_counts uniform s2 shots g) /\
  (forall (G1 G2 : Type) (u1 : G1 -> R * G1) (u2 : G2 -> R * G2) g1 g2,
     fst (u1 g1) = fst (u2 g2) ->
     fst (measure_once u1 s1 g1) = fst (measure_once u2 s2 g2)) /\
  (forall (G1 G2 : Type) (u1 : G1 -> R * G1) (u2 : G2 -> R * G2) shots g1 g2,
     draws u1 (Z.to_nat shots) g1 = draws u2 (Z.to_nat shots) g2 ->
     fst (sample_counts u1 s1 shots g1) = fst (sample_counts u2 s2 shots g2)).
Proof.
  destruct s1 as [a1], s2 as [a2]. simpl in Hs. subst a2.
  split; [reflexivity |]. split; [reflexivity |]. split; [auto |]. split.
  - intros G1 G2 u1 u2 g1 g2 Hu. unfold measure_once.
    destruct (is_valid default_tolerance (mkSV a1)) as [[|] | e]; try reflexivity.
    destruct (u1 g1) as [x1 h1], (u2 g2) as [x2 h2]. simpl in *. subst. reflexivity.
  - intros G1 G2 u1 u2 shots g1 g2 Hd.
    rewrite !sample_counts_result, Hd. reflexivity.
Qed.

Lemma operations_deterministic_witness :
  amplitudes (mkSV [C1; C0]) = amplitudes (mkSV [C1; C0]) /\
  fst (sample_counts list_source (mkSV [C1; C0]) 2 [/ 2; / 2]) =
  fst (sample_counts (fun g : nat => (/ 2, g)) (mkSV [C1; C0]) 2 7%nat).
Proof.
  split; [reflexivity |].
  apply (proj2 (proj2 (proj2 (proj2
           (operations_deterministic default_tolerance _ _ eq_refl))))).
  reflexivity.
Defined.

(** ** Complex arithmetic *)

Lemma C_ext (a b : C) : re a = re b -> im a = im b -> a = b.
Proof. destruct a, b; simpl; intros -> ->; reflexivity. Qed.

Ltac C_ring := apply C_ext; simpl; ring.

Lemma norm2_nonneg (a : C) : 0 <= norm2 a.
Proof. unfold norm2. nra. Qed.

Lemma norm2_mul (a b : C) : norm2 (Cmul a b) = norm2 a * norm2 b.
Proof. unfold norm2, Cmul; simpl. ring. Qed.

Lemma norm2_conj (a : C) : norm2 (Cconj a) = norm2 a.
Proof. unfold norm2, Cconj; simpl. ring. Qed.

Lemma cabs_sq (a : C) : cabs a * cabs a = norm2 a.
Proof. unfold cabs. apply sqrt_sqrt, norm2_nonneg. Qed.

Lemma cabs_nonneg (a : C) : 0 <= cabs a.
Proof. apply sqrt_pos. Qed.

Lemma cabs_mul_unit (w a : C) : norm2 w = 1 -> cabs (Cmul w a) = cabs a.
Proof. intro Hw. unfold cabs. rewrite norm2_mul, Hw, Rmult_1_l. reflexivity. Qed.

Lemma cabs_zero (a : C) : norm2 a = 0 -> cabs a = 0.
Proof. intro H. unfold cabs. rewrite H. apply sqrt_0. Qed.

Lemma cabs_le (a : C) (t : R) : 0 <= t -> norm2 a <= t * t -> cabs a <= t.
Proof.
  intros Ht H. unfold cabs. rewrite <- (sqrt_square t Ht).
  apply sqrt_le_1_alt. exact H.
Qed.

Lemma cabs_gt (a : C) (t : R) : 0 <= t -> t * t < norm2 a -> t < cabs a.
Proof.
  intros Ht H. unfold cabs. rewrite <- (sqrt_square t Ht) at 1.
  apply sqrt_lt_1_alt. split; [nra | exact H].
Qed.

Lemma norm2_unit_phase (z : C) : norm2 (unit_phase z) = 1.
Proof.
  unfold unit_phase. destruct (Req_EM_T (norm2 z) 0) as [_ | Hz].
  - unfold norm2, C1; simpl. ring.
  - assert (Hc : cabs z <> 0).
    { intro E. apply Hz. rewrite <- cabs_sq, E. ring. }
    pose proof (cabs_sq z) as Hsq. unfold Cscale, norm2 in *; simpl.
    transitivity ((re z * re z + im z * im z) * / (cabs z * cabs z));
      [field; exact Hc |].
    rewrite <- Hsq. field. exact Hc.
Qed.

Lemma unit_phase_mul (w z : C) :
  norm2 w = 1 -> norm2 z <> 0 -> unit_phase (Cmul w z) = Cmul w (unit_phase z).
Proof.
  intros Hw Hz. unfold unit_phase.
  destruct (Req_EM_T (norm2 (Cmul w z)) 0) as [E | _].
  - rewrite norm2_mul, Hw, Rmult_1_l in E. contradiction.
  - destruct (Req_EM_T (norm2 z) 0) as [E | _]; [contradiction |].
    rewrite cabs_mul_unit by exact Hw. C_ring.
Qed.

Lemma unit_phase_mul_zero (w z : C) :
  norm2 z = 0 -> unit_phase (Cmul w z) = unit_phase z.
Proof.
  intro Hz. unfold unit_phase.
  destruct (Req_EM_T (norm2 (Cmul w z)) 0) as [_ | E].
  - destruct (Req_EM_T (norm2 z) 0); [reflexivity | contradiction].
  - rewrite norm2_mul, Hz, Rmult_0_r in E. contradiction.
Qed.

Lemma Cmul_unit_conj (u : C) : norm2 u = 1 -> Cmul u (Cconj u) = C1.
Proof.
  intro Hu. unfold norm2 in Hu. apply C_ext; simpl; [rewrite <- Hu |]; ring.
Qed.

Lemma Cmul_assoc (a b c : C) : Cmul a (Cmul b c) = Cmul (Cmul a b) c.
Proof. C_ring. Qed.

Lemma Cmul_comm (a b : C) : Cmul a b = Cmul b a.
Proof. C_ring. Qed.

Lemma Cmul_1_l (a : C) : Cmul C1 a = a.
Proof. C_ring. Qed.

Lemma Cconj_mul (a b : C) : Cconj (Cmul a b) = Cmul (Cconj a) (Cconj b).
Proof. C_ring. Qed.

Lemma Csub_mul (w a b : C) : Csub (Cmul w a) (Cmul w b) = Cmul w (Csub a b).
Proof. C_ring. Qed.

Lemma cabs_self_diff (r x : C) : r = C1 -> cabs (Csub (Cmul r x) x) = 0.
Proof.
  intros ->. apply cabs_zero. unfold norm2, Csub, Cmul, C1; simpl. ring.
Qed.

(** ** Phase alignment *)

Lemma first_significant_some (tolerance : R) (l : list C) (k0 k : nat) :
  first_significant tolerance l k0 = Some k ->
  (k0 <= k)%nat /\
  exists x, nth_error l (k - k0) = Some x /\ tolerance < cabs x.
Proof.
  revert k0. induction l as [| a l IH]; intros k0 H; simpl in H; [discriminate |].
  destruct (Rlt_dec tolerance (cabs a)) as [Hlt | _].
  - injection H as <-. split; [lia |]. exists a. rewrite Nat.sub_diag. auto.
  - destruct (IH (S k0) H) as [Hk [x [Hx Hc]]]. split; [lia |].
    exists x. replace (k - k0)%nat with (S (k - S k0)) by lia. auto.
Qed.

Lemma first_significant_none (tolerance : R) (l : list C) (k0 : nat) :
  first_significant tolerance l k0 = None ->
  forall x, In x l -> cabs x <= tolerance.
Proof.
  revert k0. induction l as [| a l IH]; intros k0 H x Hx; [destruct Hx |].
  simpl in H. destruct (Rlt_dec tolerance (cabs a)) as [_ | Hge]; [discriminate |].
  destruct Hx as [-> | Hx]; [lra | exact (IH (S k0) H x Hx)].
Qed.

Lemma first_significant_map (tolerance : R) (w : C) (l : list C) (k0 : nat) :
  norm2 w = 1 ->
  first_significant tolerance (map (Cmul w) l) k0 = first_significant tolerance l k0.
Proof.
  intro Hw. revert k0. induction l as [| a l IH]; intro k0; simpl; [reflexivity |].
  rewrite cabs_mul_unit by exact Hw. rewrite IH. reflexivity.
Qed.

Lemma significant_first (tolerance : R) (a : StateVector) :
  significant tolerance a ->
  exists k x, first_significant tolerance (amplitudes a) 0 = Some k /\
              nth_error (amplitudes a) k = Some x /\ tolerance < cabs x.
Proof.
  intros [i [x [Hx Hc]]].
  destruct (first_significant tolerance (amplitudes a) 0) as [k |] eqn:E.
  - destruct (first_significant_some _ _ _ _ E) as [_ [y [Hy Hcy]]].
    rewrite Nat.sub_0_r in Hy. exists k, y. auto.
  - pose proof (first_significant_none _ _ _ E x (nth_error_In _ _ Hx)). lra.
Qed.

Lemma phase_ratio_unit (tolerance : R) (a b : StateVector) :
  norm2 (phase_ratio tolerance a b) = 1.
Proof.
  unfold phase_ratio. destruct (first_significant _ _ _).
  - rewrite norm2_mul, norm2_conj, !norm2_unit_phase. ring.
  - unfold norm2, C1; simpl. ring.
Qed.

Lemma phase_ratio_self (tolerance : R) (a : StateVector) :
  phase_ratio tolerance a a = C1.
Proof.
  unfold phase_ratio. destruct (first_significant _ _ _); [| reflexivity].
  apply Cmul_unit_conj, norm2_unit_phase.
Qed.

Lemma nth_of_nth_error (l : list C) (k : nat) (x : C) :
  nth_error l k = Some x -> nth k l C0 = x.
Proof. intro H. apply nth_error_nth. exact H. Qed.

Lemma nth_error_scale (w : C) (l : list C) (k : nat) (x : C) :
  nth_error l k = Some x -> nth_error (map (Cmul w) l) k = Some (Cmul w x).
Proof. intro H. rewrite nth_error_map, H. reflexivity. Qed.

Lemma num_qubits_scale (w : C) (s : StateVector) :
  num_qubits (scale w s) = num_qubits s.
Proof. unfold num_qubits, scale; simpl. rewrite length_map. reflexivity. Qed.

Lemma significant_nonzero (tolerance : R) (x : C) :
  0 <= tolerance -> tolerance < cabs x -> norm2 x <> 0.
Proof. intros Ht Hc E. rewrite cabs_zero in Hc by exact E. lra. Qed.

(** ** Element-wise comparison *)

Lemma forallb_combine_map_r (p q : C * C -> bool) (g : C -> C) (l1 l2 : list C) :
  (forall x y, p (x, g y) = q (x, y)) ->
  forallb p (combine l1 (map g l2)) = forallb q (combine l1 l2).
Proof.
  intro H. revert l2. induction l1 as [| x l1 IH]; intros [| y l2]; simpl; auto.
  rewrite H, IH. reflexivity.
Qed.

Lemma forallb_combine_map_l (p q : C * C -> bool) (f : C -> C) (l1 l2 : list C) :
  (forall x y, p (f x, y) = q (x, y)) ->
  forallb p (combine (map f l1) l2) = forallb q (combine l1 l2).
Proof.
  intro H. revert l2. induction l1 as [| x l1 IH]; intros [| y l2]; simpl; auto.
  rewrite H, IH. reflexivity.
Qed.

Lemma forallb_combine_diag (p : C * C -> bool) (l : list C) :
  (forall x, p (x, x) = true) -> forallb p (combine l l) = true.
Proof. intro H. induction l as [| x l IH]; simpl; [reflexivity | rewrite H, IH; reflexivity]. Qed.

Lemma in_combine_nth (l1 l2 : list C) (i : nat) (x y : C) :
  nth_error l1 i = Some x -> nth_error l2 i = Some y -> In (x, y) (combine l1 l2).
Proof.
  revert l2 i. induction l1 as [| a l1 IH]; intros [| b l2] [| i] H1 H2;
    simpl in *; try discriminate.
  - injection H1 as ->. injection H2 as ->. left; reflexivity.
  - right. exact (IH l2 i H1 H2).
Qed.

Lemma forallb_false_at (p : C * C -> bool) (l : list (C * C)) (xy : C * C) :
  In xy l -> p xy = false -> forallb p l = false.
Proof.
  intros Hin Hp. destruct (forallb p l) eqn:E; [| reflexivity].
  rewrite forallb_forall in E. rewrite (E xy Hin) in Hp. discriminate.
Qed.

(** ** Properties of [equivalent] *)

Lemma zero_of_norm2 (y : C) : norm2 y = 0 -> y = C0.
Proof.
  unfold norm2. intro H. apply C_ext; simpl; nra.
Qed.

Lemma within_zero (tolerance : R) (r x : C) :
  norm2 r = 1 -> tolerance < cabs x -> within_tolerance tolerance r (x, C0) = false.
Proof.
  intros Hr Hc. unfold within_tolerance; simpl.
  replace (Csub (Cmul r x) C0) with (Cmul r x) by C_ring.
  rewrite cabs_mul_unit by exact Hr. destruct (Rle_dec _ _); [lra | reflexivity].
Qed.

Lemma equivalent_pos (tolerance : R) (a b : StateVector) :
  0 < tolerance ->
  equivalent tolerance a b =
  if negb (Nat.eqb (num_qubits a) (num_qubits b)) then Err DimensionError
  else Ok (forallb (within_tolerance tolerance (phase_ratio tolerance a b))
                   (combine (amplitudes a) (amplitudes b))).
Proof.
  intro Ht. unfold equivalent. destruct (Rle_dec tolerance 0); [lra | reflexivity].
Qed.

Lemma equivalent_nonpos (tolerance : R) (a b : StateVector) :
  tolerance <= 0 -> equivalent tolerance a b = Err ArgumentError.
Proof.
  intro Ht. unfold equivalent. destruct (Rle_dec tolerance 0); [reflexivity | lra].
Qed.

Lemma equivalent_same_qubits (tolerance : R) (a b : StateVector) :
  0 < tolerance -> num_qubits a = num_qubits b ->
  equivalent tolerance a b =
  Ok (forallb (within_tolerance tolerance (phase_ratio tolerance a b))
              (combine (amplitudes a) (amplitudes b))).
Proof.
  intros Ht H. rewrite equivalent_pos by exact Ht. rewrite H, Nat.eqb_refl. reflexivity.
Qed.

Lemma equivalent_sound (tolerance : R) (a b : StateVector) :
  equivalent tolerance a b = Ok true -> phase_equivalent tolerance a b.
Proof.
  unfold equivalent. destruct (Rle_dec tolerance 0); [discriminate |].
  destruct (negb _); [discriminate |]. intro H. injection H as H.
  exists (phase_ratio tolerance a b). split; [apply phase_ratio_unit |].
  intros i x y Hx Hy. rewrite forallb_forall in H.
  specialize (H _ (in_combine_nth _ _ _ _ _ Hx Hy)).
  unfold within_tolerance in H; simpl in H.
  destruct (Rle_dec _ _); [assumption | discriminate].
Qed.

Lemma equivalent_refl (tolerance : R) (x : StateVector) :
  0 < tolerance -> equivalent tolerance x x = Ok true.
Proof.
  intro Ht. rewrite equivalent_pos by exact Ht. rewrite Nat.eqb_refl. simpl. f_equal.
  rewrite phase_ratio_self. apply forallb_combine_diag. intro y.
  unfold within_tolerance; simpl. rewrite cabs_self_diff by reflexivity.
  destruct (Rle_dec _ _); [reflexivity | lra].
Qed.

Lemma phase_ratio_exact (tolerance : R) (a : StateVector) (w : C) :
  norm2 w = 1 -> 0 <= tolerance -> significant tolerance a ->
  phase_ratio tolerance a (scale w a) = w.
Proof.
  intros Hw Ht Hs. destruct (significant_first _ _ Hs) as [k [x [Hf [Hx Hc]]]].
  unfold phase_ratio. rewrite Hf. unfold scale; simpl amplitudes.
  rewrite (nth_of_nth_error _ _ _ (nth_error_scale w _ _ _ Hx)),
          (nth_of_nth_error _ _ _ Hx).
  rewrite unit_phase_mul by (auto; eapply significant_nonzero; eauto).
  rewrite <- Cmul_assoc, Cmul_unit_conj by apply norm2_unit_phase. C_ring.
Qed.

Lemma equivalent_exact_phase (tolerance : R) (a : StateVector) (w : C) :
  norm2 w = 1 -> 0 < tolerance -> significant tolerance a ->
  equivalent tolerance a (scale w a) = Ok true.
Proof.
  intros Hw Ht Hs. rewrite equivalent_pos by exact Ht. rewrite num_qubits_scale, Nat.eqb_refl.
  simpl. f_equal. rewrite phase_ratio_exact by (auto; lra).
  unfold scale; simpl amplitudes.
  rewrite (forallb_combine_map_r _
             (fun xy => within_tolerance tolerance w (fst xy, Cmul w (snd xy))))
    by reflexivity.
  apply forallb_combine_diag. intro x. unfold within_tolerance; simpl.
  rewrite cabs_zero by (unfold norm2; simpl; ring).
  destruct (Rle_dec _ _); [reflexivity | lra].
Qed.

Lemma equivalent_scale_r (tolerance : R) (a b : StateVector) (w : C) :
  norm2 w = 1 -> 0 < tolerance -> significant tolerance a ->
  length (amplitudes a) = length (amplitudes b) ->
  equivalent tolerance a (scale w b) = equivalent tolerance a b.
Proof.
  intros Hw Ht Hs Hl. rewrite !equivalent_pos by exact Ht. rewrite num_qubits_scale.
  destruct (negb _); [reflexivity |]. f_equal.
  destruct (significant_first _ _ Hs) as [k [x [Hf [Hx Hc]]]].
  assert (Hk : (k < length (amplitudes b))%nat).
  { rewrite <- Hl. apply nth_error_Some. congruence. }
  destruct (nth_error (amplitudes b) k) as [y |] eqn:Hy;
    [| apply nth_error_None in Hy; lia].
  destruct (Req_EM_T (norm2 y) 0) as [Hy0 | Hy0].
  - apply zero_of_norm2 in Hy0. subst y.
    pose proof (nth_error_scale w _ _ _ Hy) as Hwy.
    replace (Cmul w C0) with C0 in Hwy by C_ring.
    rewrite (forallb_false_at _ _ (x, C0)), (forallb_false_at _ _ (x, C0));
      try reflexivity; try (apply within_zero; [apply phase_ratio_unit | exact Hc]).
    + apply (in_combine_nth _ _ k); assumption.
    + apply (in_combine_nth _ _ k); assumption.
  - assert (Hr : phase_ratio tolerance a (scale w b) =
                 Cmul w (phase_ratio tolerance a b)).
    { unfold phase_ratio. rewrite Hf. unfold scale; simpl amplitudes.
      rewrite (nth_of_nth_error _ _ _ (nth_error_scale w _ _ _ Hy)),
              (nth_of_nth_error _ _ _ Hy).
      rewrite unit_phase_mul by assumption. symmetry. apply Cmul_assoc. }
    rewrite Hr. unfold scale; simpl amplitudes.
    apply forallb_combine_map_r. intros x' y'. unfold within_tolerance; simpl.
    rewrite <- Cmul_assoc, Csub_mul, cabs_mul_unit by exact Hw. reflexivity.
Qed.

Lemma equivalent_scale_l (tolerance : R) (a b : StateVector) (w : C) :
  norm2 w = 1 -> 0 < tolerance -> significant tolerance a ->
  equivalent tolerance (scale w a) b = equivalent tolerance a b.
Proof.
  intros Hw Ht Hs. rewrite !equivalent_pos by exact Ht. rewrite num_qubits_scale.
  assert (Ht' : 0 <= tolerance) by lra.
  destruct (negb _); [reflexivity |]. f_equal.
  destruct (significant_first _ _ Hs) as [k [x [Hf [Hx Hc]]]].
  assert (Hr : phase_ratio tolerance (scale w a) b =
               Cmul (Cconj w) (phase_ratio tolerance a b)).
  { unfold phase_ratio. unfold scale; simpl amplitudes.
    rewrite first_significant_map, Hf by exact Hw.
    rewrite (nth_of_nth_error _ _ _ (nth_error_scale w _ _ _ Hx)),
            (nth_of_nth_error _ _ _ Hx).
    rewrite unit_phase_mul by (auto; eapply significant_nonzero; eauto).
    rewrite Cconj_mul. C_ring. }
  rewrite Hr. unfold scale; simpl amplitudes.
  apply forallb_combine_map_l. intros x' y'. unfold within_tolerance; simpl.
  replace (Cmul (Cmul (Cconj w) (phase_ratio tolerance a b)) (Cmul w x'))
    with (Cmul (Cmul w (Cconj w)) (Cmul (phase_ratio tolerance a b) x')) by C_ring.
  rewrite Cmul_unit_conj, Cmul_1_l by exact Hw. reflexivity.
Qed.

(** ** Claim C3 *)

(** C3 (as amended): for every tolerance [<= 0], [equivalent] fails with
    [ArgumentError]; for [tolerance > 0], it fails with
    [DimensionError] when the qubit counts differ; a [true] result implies
    that [b] is within [tolerance] of [e^{i theta} a] for some [theta];
    [equivalent x x] is [true] for every [x]; and when [a] has an amplitude of
    magnitude above [tolerance], [b = e^{i theta} a] exactly gives [true] and
    the result is unchanged when either operand is multiplied by a
    unit-magnitude scalar. *)
Theorem equivalent_spec (tolerance : R) :
  (tolerance <= 0 -> forall a b, equivalent tolerance a b = Err ArgumentError) /\
  (0 < tolerance ->
  (forall a b, num_qubits a <> num_qubits b ->
     equivalent tolerance a b = Err DimensionError) /\
  (forall a b, equivalent tolerance a b = Ok true -> phase_equivalent tolerance a b) /\
  (forall x, equivalent tolerance x x = Ok true) /\
  (forall a w, norm2 w = 1 -> significant tolerance a ->
     equivalent tolerance a (scale w a) = Ok true) /\
  (forall a b w, norm2 w = 1 -> significant tolerance a ->
     length (amplitudes a) = length (amplitudes b) ->
     equivalent tolerance a (scale w b) = equivalent tolerance a b /\
     equivalent tolerance (scale w a) b = equivalent tolerance a b)).
Proof.
  split; [intros Ht a b; apply equivalent_nonpos; exact Ht |].
  intro Ht. split.
  { intros a b Hne. rewrite equivalent_pos by exact Ht.
    destruct (Nat.eqb_spec (num_qubits a) (num_qubits b)); [contradiction | reflexivity]. }
  split; [exact (equivalent_sound tolerance) |].
  split; [intro x; apply equivalent_refl; exact Ht |].
  split; [intros a w Hw Hs; apply equivalent_exact_phase; assumption |].
  intros a b w Hw Hs Hl. split.
  - apply equivalent_scale_r; assumption.
  - apply equivalent_scale_l; assumption.
Qed.

Lemma equivalent_spec_witness :
  0 < default_tolerance /\
  equivalent default_tolerance (mkSV [C1; C0]) (mkSV [C1; C0]) = Ok true.
Proof.
  assert (Ht : 0 < default_tolerance) by (unfold default_tolerance; lra).
  split; [exact Ht |].
  exact (proj1 (proj2 (proj2 (proj2 (equivalent_spec default_tolerance) Ht))) _).
Defined.

(** C3 as stated fails in both directions it claims.  (1) The valid states
    [a = [3/5, 4/5]] and [b = [w1 * 3/5, w2 * 4/5]], with the unit phases
    [w1 = c + i s] and [w2 = c - i s] ([c = (m^2-1)/(m^2+1)],
    [s = 2m/(m^2+1)], [m = 2 * 10^8]), are within the default tolerance of
    [e^{i 0} a], yet [equivalent] aligns the phase at index 0 and returns
    false.  (2) For [a = [6e-9, 0]], whose amplitudes are all within the
    tolerance of 0, [equivalent a a] is true but [equivalent (-a) a] is
    false although [-a = e^{i pi} a]. *)
Lemma equivalent_not_phase_complete :
  let m2 := 40000000000000000 in
  let w1 := mkC ((m2 - 1) / (m2 + 1)) (400000000 / (m2 + 1)) in
  let w2 := mkC ((m2 - 1) / (m2 + 1)) (- (400000000 / (m2 + 1))) in
  let a := mkSV [mkC (3/5) 0; mkC (4/5) 0] in
  let b := mkSV [Cmul w1 (mkC (3/5) 0); Cmul w2 (mkC (4/5) 0)] in
  let z := mkSV [mkC (6 / 1000000000) 0; C0] in
  (is_valid default_tolerance a = Ok true /\ is_valid default_tolerance b = Ok true /\
   phase_equivalent default_tolerance a b /\
   equivalent default_tolerance a b = Ok false) /\
  (norm2 (mkC (-1) 0) = 1 /\
   equivalent default_tolerance z z = Ok true /\
   equivalent default_tolerance (scale (mkC (-1) 0) z) z = Ok false).
Proof.
  cbv zeta.
  assert (Ht : 0 <= default_tolerance) by (unfold default_tolerance; lra).
  assert (Hw1 : norm2 (mkC ((40000000000000000 - 1) / (40000000000000000 + 1))
                           (400000000 / (40000000000000000 + 1))) = 1)
    by (unfold norm2; simpl; field; lra).
  assert (Hw2 : norm2 (mkC ((40000000000000000 - 1) / (40000000000000000 + 1))
                           (- (400000000 / (40000000000000000 + 1)))) = 1)
    by (unfold norm2; simpl; field; lra).
  split.
  - split.
    { apply (is_valid_iff _ _ default_tolerance_pos). unfold sumR, norm2; simpl.
      unfold Rabs; destruct (Rcase_abs _); unfold default_tolerance; lra. }
    split.
    { apply (is_valid_iff _ _ default_tolerance_pos). unfold sumR; simpl map; cbn [fold_right].
      rewrite !norm2_mul, Hw1, Hw2. unfold norm2; simpl.
      unfold Rabs; destruct (Rcase_abs _); unfold default_tolerance; lra. }
    split.
    + exists C1. split; [unfold norm2; simpl; ring |].
      intros i x y Hx Hy.
      destruct i as [| [| i]]; simpl in Hx, Hy; try (destruct i; discriminate);
        injection Hx as <-; injection Hy as <-;
        apply cabs_le; unfold default_tolerance, norm2; simpl; lra.
    + rewrite equivalent_same_qubits by (exact default_tolerance_pos || reflexivity). f_equal.
      assert (Hnz : norm2 (mkC (3 / 5) 0) <> 0) by (unfold norm2; simpl; lra).
      assert (Hr : phase_ratio default_tolerance
                     (mkSV [mkC (3 / 5) 0; mkC (4 / 5) 0])
                     (mkSV [Cmul (mkC ((40000000000000000 - 1) / (40000000000000000 + 1))
                                      (400000000 / (40000000000000000 + 1))) (mkC (3 / 5) 0);
                            Cmul (mkC ((40000000000000000 - 1) / (40000000000000000 + 1))
                                      (- (400000000 / (40000000000000000 + 1)))) (mkC (4 / 5) 0)])
                   = mkC ((40000000000000000 - 1) / (40000000000000000 + 1))
                         (400000000 / (40000000000000000 + 1))).
      { unfold phase_ratio. cbn [first_significant amplitudes].
        destruct (Rlt_dec _ _) as [_ | Hn].
        - cbn [nth amplitudes]. rewrite unit_phase_mul by assumption.
          rewrite <- Cmul_assoc, Cmul_unit_conj by apply norm2_unit_phase. C_ring.
        - exfalso. apply Hn, cabs_gt; [exact Ht |].
          unfold default_tolerance, norm2; simpl; lra. }
      rewrite Hr.
      eapply forallb_false_at; [simpl; right; left; reflexivity |].
      unfold within_tolerance. cbn [fst snd].
      destruct (Rle_dec _ _) as [Hle | _]; [exfalso | reflexivity].
      assert (Hgt : default_tolerance <
                    cabs (Csub (Cmul (mkC ((40000000000000000 - 1) / (40000000000000000 + 1))
                                          (400000000 / (40000000000000000 + 1)))
                                     (mkC (4 / 5) 0))
                               (Cmul (mkC ((40000000000000000 - 1) / (40000000000000000 + 1))
                                          (- (400000000 / (40000000000000000 + 1))))
                                     (mkC (4 / 5) 0)))).
      { apply cabs_gt; [exact Ht |]. unfold default_tolerance, norm2; simpl; lra. }
      lra.
  - split; [unfold norm2; simpl; ring |].
    split; [apply equivalent_refl; exact default_tolerance_pos |].
    rewrite equivalent_same_qubits by (exact default_tolerance_pos || reflexivity). f_equal.
    assert (Hr : phase_ratio default_tolerance
                   (scale (mkC (-1) 0) (mkSV [mkC (6 / 1000000000) 0; C0]))
                   (mkSV [mkC (6 / 1000000000) 0; C0]) = C1).
    { unfold phase_ratio, scale. cbn [amplitudes].
      rewrite first_significant_map by (unfold norm2; simpl; ring).
      cbn [first_significant].
      destruct (Rlt_dec _ _) as [Hlt | _].
      { exfalso. assert (cabs (mkC (6 / 1000000000) 0) <= default_tolerance);
          [apply cabs_le; [exact Ht |]; unfold default_tolerance, norm2; simpl; lra | lra]. }
      destruct (Rlt_dec _ _) as [Hlt | _]; [| reflexivity].
      exfalso. rewrite cabs_zero in Hlt by (unfold norm2; simpl; ring). lra. }
    rewrite Hr.
    eapply forallb_false_at; [simpl; left; reflexivity |].
    unfold within_tolerance. cbn [fst snd].
    destruct (Rle_dec _ _) as [Hle | _]; [exfalso | reflexivity].
    assert (Hgt : default_tolerance <
                  cabs (Csub (Cmul C1 (Cmul (mkC (-1) 0) (mkC (6 / 1000000000) 0)))
                             (mkC (6 / 1000000000) 0))).
    { apply cabs_gt; [exact Ht |]. unfold default_tolerance, norm2; simpl; lra. }
    lra.
Qed.

(** * Further properties of the notebook's cells *)

(** ** [matmul(M, ket0)] *)

(** [M] swaps the two entries of every length-two integer vector, so it sends
    [ket0] to [array([0, 1])] and applying it twice gives the vector back. *)
Theorem matmul_M_swaps (a b : Z) :
  matmul M [a; b] = Some [b; a] /\
  (forall w, matmul M [a; b] = Some w -> matmul M w = Some [a; b]) /\
  matmul M ket0 = Some [0%Z; 1%Z].
Proof.
  assert (Hs : forall x y, matmul M [x; y] = Some [y; x]).
  { intros x y. unfold matmul, dot, M; cbn -[Z.mul Z.add]. repeat f_equal; ring. }
  split; [apply Hs |]. split; [| apply Hs].
  intros w Hw. rewrite Hs in Hw. injection Hw as <-. apply Hs.
Qed.

(** ** [num_qubits] *)

(** A constructed state keeps its amplitudes, and their number is exactly
    [2 ^ num_qubits]. *)
Theorem construct_num_qubits_length (amps : list C) (s : StateVector)
  (H : construct amps = Ok s) :
  amplitudes s = amps /\ length amps = (2 ^ num_qubits s)%nat.
Proof. exact (construct_ok_shape amps s H). Qed.

Lemma construct_num_qubits_length_witness :
  construct [C1; C0; C0; C0] = Ok (mkSV [C1; C0; C0; C0]) /\
  length [C1; C0; C0; C0] = (2 ^ num_qubits (mkSV [C1; C0; C0; C0]))%nat.
Proof.
  split; [reflexivity |].
  exact (proj2 (construct_num_qubits_length [C1; C0; C0; C0] (mkSV [C1; C0; C0; C0]) eq_refl)).
Defined.

(** ** Basis states and the equivalence check *)

Lemma collapse_nth_error (s : StateVector) (k i : nat) :
  (i < length (amplitudes s))%nat ->
  nth_error (amplitudes (collapse_to s k)) i = Some (if Nat.eqb i k then C1 else C0).
Proof.
  intro Hi. simpl. rewrite nth_error_map, nth_error_seq.
  destruct (Nat.ltb_spec i (length (amplitudes s))); [reflexivity | lia].
Qed.

Lemma cabs_C1 : cabs C1 = 1.
Proof.
  unfold cabs, norm2, C1; simpl. replace (1 * 1 + 0 * 0) with 1 by ring. apply sqrt_1.
Qed.

Lemma equivalent_basis (tolerance : R) (s : StateVector) (k j : nat) :
  0 < tolerance < 1 ->
  (k < length (amplitudes s))%nat -> (j < length (amplitudes s))%nat ->
  equivalent tolerance (collapse_to s k) (collapse_to s j) = Ok (Nat.eqb k j).
Proof.
  intros Ht Hk Hj. destruct (Nat.eqb_spec k j) as [<- | Hne].
  - apply equivalent_refl. lra.
  - rewrite equivalent_same_qubits
      by (lra || (rewrite !collapse_num_qubits; reflexivity)).
    f_equal. apply (forallb_false_at _ _ (C1, C0)).
    + apply (in_combine_nth _ _ k).
      * rewrite collapse_nth_error, Nat.eqb_refl by exact Hk. reflexivity.
      * rewrite collapse_nth_error by exact Hk.
        destruct (Nat.eqb_spec k j); [contradiction | reflexivity].
    + apply within_zero; [apply phase_ratio_unit | rewrite cabs_C1; lra].
Qed.

(** Two post-measurement basis states are equivalent exactly when they
    collapse onto the same index (for a tolerance in [(0, 1)]). *)
Theorem collapse_equivalent_iff_same_index (tolerance : R) (s : StateVector)
  (k j : nat) (Ht : 0 < tolerance < 1)
  (Hk : (k < length (amplitudes s))%nat) (Hj : (j < length (amplitudes s))%nat) :
  equivalent tolerance (collapse_to s k) (collapse_to s j) = Ok (Nat.eqb k j).
Proof. apply equivalent_basis; assumption. Qed.

Lemma collapse_equivalent_iff_same_index_witness :
  equivalent default_tolerance (collapse_to (mkSV [C1; C0]) 1) (collapse_to (mkSV [C1; C0]) 0)
  = Ok false.
Proof.
  apply (collapse_equivalent_iff_same_index default_tolerance _ 1 0);
    [unfold default_tolerance; lra | simpl; lia | simpl; lia].
Defined.

(** ** Notebook cell: reporting a one-qubit measurement *)

(** After [measure_once] on a two-amplitude state, the notebook's report says
    "0 state" exactly when the measured label is ["0"], and "1 state" exactly
    when it is ["1"]. *)
Theorem report_measurement_follows_label {G} (uniform : G -> R * G)
  (s : StateVector) (Hlen : length (amplitudes s) = 2%nat)
  (g g' : G) (lab : string) (s' : StateVector)
  (Hm : measure_once uniform s g = (Ok (lab, s'), g')) :
  (lab = "0"%string /\ report_measurement s' = Ok msg_zero) \/
  (lab = "1"%string /\ report_measurement s' = Ok msg_one).
Proof.
  unfold measure_once in Hm.
  destruct (is_valid default_tolerance s) as [[|] | e] eqn:Hv; try discriminate.
  destruct (uniform g) as [u g1]. injection Hm as <- <- _.
  assert (Hne : amplitudes s <> []) by (intro E; rewrite E in Hlen; discriminate).
  destruct (select_index_spec s u Hne) as [Hb _].
  assert (E0 : mkSV [C1; C0] = collapse_to s 0)
    by (unfold collapse_to; rewrite Hlen; reflexivity).
  assert (Hn : num_qubits s = 1%nat) by (unfold num_qubits; rewrite Hlen; reflexivity).
  unfold report_measurement. rewrite E0, Hn.
  remember (select_index s u) as k eqn:Hk.
  rewrite equivalent_basis by (unfold default_tolerance; lra || lia).
  destruct k as [| [| k]]; [left | right | lia]; split; reflexivity.
Qed.

Lemma report_measurement_follows_label_witness :
  exists lab s' g',
    measure_once list_source (mkSV [C1; C0]) [/ 2] = (Ok (lab, s'), g') /\
    ((lab = "0"%string /\ report_measurement s' = Ok msg_zero) \/
     (lab = "1"%string /\ report_measurement s' = Ok msg_one)).
Proof.
  exists (label 1 (select_index (mkSV [C1; C0]) (/ 2))),
         (collapse_to (mkSV [C1; C0]) (select_index (mkSV [C1; C0]) (/ 2))), [].
  assert (Hm : measure_once list_source (mkSV [C1; C0]) [/ 2] =
               (Ok (label 1 (select_index (mkSV [C1; C0]) (/ 2)),
                    collapse_to (mkSV [C1; C0]) (select_index (mkSV [C1; C0]) (/ 2))), []))
    by (unfold measure_once; rewrite valid_basis0; reflexivity).
  split; [exact Hm |].
  exact (report_measurement_follows_label list_source (mkSV [C1; C0]) eq_refl _ _ _ _ Hm).
Defined.

(** ** Cumulative probabilities *)

Lemma sumR_firstn_S (ps : list R) (k : nat) :
  sumR (firstn (S k) ps) = sumR (firstn k ps) + nth k ps 0.
Proof.
  revert k. induction ps as [| p ps IH]; intros k.
  - destruct k; simpl; ring.
  - destruct k as [| k].
    + unfold sumR; simpl. ring.
    + rewrite !firstn_cons.
      change (sumR (p :: firstn (S k) ps)) with (p + sumR (firstn (S k) ps)).
      change (sumR (p :: firstn k ps)) with (p + sumR (firstn k ps)).
      rewrite IH. simpl nth. ring.
Qed.

Lemma cumulative_S (ps : list R) (k : nat) :
  cumulative ps (S k) = cumulative ps k + nth (S k) ps 0.
Proof. unfold cumulative. apply sumR_firstn_S. Qed.

Lemma cumulative_0 (ps : list R) : cumulative ps 0 = nth 0 ps 0.
Proof. destruct ps; unfold cumulative, sumR; simpl; ring. Qed.

Lemma nth_nonneg (l : list R) (i : nat) :
  Forall (fun p => 0 <= p) l -> 0 <= nth i l 0.
Proof.
  intro H. revert i. induction H as [| p l Hp Hl IH]; intros [| i]; simpl;
    auto; lra.
Qed.

Lemma probabilities_nonneg (s : StateVector) :
  Forall (fun p => 0 <= p) (probabilities s).
Proof.
  apply Forall_forall. intros p Hp. unfold probabilities in Hp.
  apply in_map_iff in Hp as [a [<- _]]. apply norm2_nonneg.
Qed.

Lemma cumulative_mono (ps : list R) (i j : nat) :
  Forall (fun p => 0 <= p) ps -> (i <= j)%nat -> cumulative ps i <= cumulative ps j.
Proof.
  intros Hps Hij. induction Hij as [| j Hij IH]; [lra |].
  rewrite cumulative_S. pose proof (nth_nonneg ps (S j) Hps). lra.
Qed.

Lemma cumulative_total (ps : list R) :
  ps <> [] -> cumulative ps (length ps - 1) = sumR ps.
Proof.
  intro Hne. unfold cumulative.
  replace (S (length ps - 1)) with (length ps)
    by (destruct ps; [contradiction | simpl; lia]).
  rewrite firstn_all. reflexivity.
Qed.

(** ** Inverse-CDF selection *)

(** [measure_once] selects index [k] exactly when
    [c_{k-1} <= u] (or [k = 0]) and [u < c_k] (or [k] is the last index). *)
Theorem select_index_interval (s : StateVector) (u : R) (k : nat)
  (Hne : amplitudes s <> []) (Hk : (k < length (amplitudes s))%nat) :
  select_index s u = k <->
  ((k = 0%nat \/ cumulative (probabilities s) (k - 1) <= u) /\
   (u < cumulative (probabilities s) k \/ k = (length (amplitudes s) - 1)%nat)).
Proof.
  destruct (select_index_spec s u Hne) as [Hb [Hj Hl]].
  pose proof (probabilities_nonneg s) as Hps.
  split.
  - intros <-. split.
    + destruct (select_index s u) as [| k']; [left; reflexivity | right].
      replace (S k' - 1)%nat with k' by lia. apply Hj. lia.
    + destruct Hl; [right | left]; assumption.
  - intros [Hlo Hhi].
    destruct (Nat.lt_trichotomy (select_index s u) k) as [Lt | [Eq | Gt]];
      [exfalso | exact Eq | exfalso].
    + destruct Hl as [Hl | Hl]; [lia |].
      destruct Hlo as [Hlo | Hlo]; [lia |].
      pose proof (cumulative_mono _ (select_index s u) (k - 1) Hps ltac:(lia)). lra.
    + specialize (Hj k Gt).
      destruct Hhi as [Hhi | Hhi]; [lra | lia].
Qed.

Lemma select_index_interval_witness :
  amplitudes (mkSV [C1; C0]) <> [] /\
  (select_index (mkSV [C1; C0]) (/ 2) = 0%nat <->
   ((0%nat = 0%nat \/ cumulative (probabilities (mkSV [C1; C0])) (0 - 1) <= / 2) /\
    (/ 2 < cumulative (probabilities (mkSV [C1; C0])) 0 \/
     0%nat = (length (amplitudes (mkSV [C1; C0])) - 1)%nat))).
Proof.
  assert (Hne : amplitudes (mkSV [C1; C0]) <> []) by discriminate.
  split; [exact Hne |].
  exact (select_index_interval (mkSV [C1; C0]) (/ 2) 0 Hne ltac:(simpl; lia)).
Defined.

(** A measured outcome never has probability zero when the uniform value
    lies below the total probability. *)
Theorem measure_once_outcome_possible {G} (uniform : G -> R * G)
  (s : StateVector) (g g1 g' : G) (u : R) (lab : string) (s' : StateVector)
  (Hu : uniform g = (u, g1)) (Hr : 0 <= u < sumR (probabilities s))
  (Hm : measure_once uniform s g = (Ok (lab, s'), g')) :
  exists k, (k < length (amplitudes s))%nat /\ lab = label (num_qubits s) k /\
            s' = collapse_to s k /\ 0 < nth k (probabilities s) 0.
Proof.
  unfold measure_once in Hm.
  destruct (is_valid default_tolerance s) as [[|] | e] eqn:Hv; try discriminate.
  rewrite Hu in Hm. injection Hm as <- <- _.
  pose proof (valid_nonempty s Hv) as Hne.
  destruct (select_index_spec s u Hne) as [Hb [Hj Hl]].
  exists (select_index s u). split; [exact Hb |]. split; [reflexivity |].
  split; [reflexivity |].
  pose proof (probabilities_nonneg s) as Hps.
  assert (Hpne : probabilities s <> [])
    by (unfold probabilities; destruct (amplitudes s); [contradiction | discriminate]).
  assert (Htot : cumulative (probabilities s) (length (amplitudes s) - 1) =
                 sumR (probabilities s)).
  { rewrite <- (cumulative_total _ Hpne). unfold probabilities. rewrite length_map.
    reflexivity. }
  destruct (Rlt_le_dec 0 (nth (select_index s u) (probabilities s) 0)) as [Hp | Hp];
    [exact Hp | exfalso].
  pose proof (nth_nonneg _ (select_index s u) Hps).
  destruct (select_index s u) as [| k] eqn:Ek.
  - rewrite <- cumulative_0 in *.
    destruct Hl as [Hl | Hl]; [rewrite <- Hl in Htot |]; lra.
  - specialize (Hj k ltac:(lia)). rewrite <- Ek in Hl.
    assert (Hc : cumulative (probabilities s) (select_index s u) =
                 cumulative (probabilities s) k)
      by (rewrite Ek, cumulative_S; lra).
    destruct Hl as [Hl | Hl]; [rewrite <- Hl in Htot |]; lra.
Qed.

Lemma measure_once_outcome_possible_witness :
  exists lab s' g',
    measure_once list_source (mkSV [C1; C0]) [/ 2] = (Ok (lab, s'), g') /\
    exists k, (k < 2)%nat /\ lab = label 1 k /\ s' = collapse_to (mkSV [C1; C0]) k /\
              0 < nth k (probabilities (mkSV [C1; C0])) 0.
Proof.
  exists (label 1 (select_index (mkSV [C1; C0]) (/ 2))),
         (collapse_to (mkSV [C1; C0]) (select_index (mkSV [C1; C0]) (/ 2))), [].
  assert (Hm : measure_once list_source (mkSV [C1; C0]) [/ 2] =
               (Ok (label 1 (select_index (mkSV [C1; C0]) (/ 2)),
                    collapse_to (mkSV [C1; C0]) (select_index (mkSV [C1; C0]) (/ 2))), []))
    by (unfold measure_once; rewrite valid_basis0; reflexivity).
  split; [exact Hm |].
  exact (measure_once_outcome_possible list_source (mkSV [C1; C0]) [/ 2] [] [] (/ 2)
           _ _ eq_refl
           ltac:(unfold probabilities, sumR, norm2, C1, C0; simpl; lra) Hm).
Defined.

(** ** Labels of [probabilities_as_labels] *)

Lemma nodup_labels (n a len : nat) :
  (a + len <= 2 ^ n)%nat -> NoDup (map (label n) (seq a len)).
Proof.
  revert a. induction len as [| len IH]; intros a Hb; simpl; [constructor |].
  constructor; [| apply IH; lia].
  intro Hin. apply in_map_iff in Hin as [x [Hx Hin]]. apply in_seq in Hin.
  apply label_inj in Hx; lia.
Qed.

(** The keys of [probabilities_as_labels] of a constructed state are the
    [2 ^ n] labels in index order, with no key repeated. *)
Theorem probabilities_as_labels_keys (amps : list C) (s : StateVector)
  (H : construct amps = Ok s) :
  map fst (probabilities_as_labels s) = map (label (num_qubits s)) (seq 0 (2 ^ num_qubits s)) /\
  NoDup (map fst (probabilities_as_labels s)).
Proof.
  destruct (construct_ok_shape _ _ H) as [Ha Hl].
  assert (E : map fst (probabilities_as_labels s) =
              map (label (num_qubits s)) (seq 0 (2 ^ num_qubits s))).
  { unfold probabilities_as_labels. cbv zeta. rewrite map_map. cbn [fst].
    unfold probabilities. rewrite length_map, Ha, Hl. reflexivity. }
  split; [exact E |]. rewrite E. apply nodup_labels. lia.
Qed.

Lemma probabilities_as_labels_keys_witness :
  construct [C0; C1; C0; C0] = Ok (mkSV [C0; C1; C0; C0]) /\
  NoDup (map fst (probabilities_as_labels (mkSV [C0; C1; C0; C0]))).
Proof.
  split; [reflexivity |].
  exact (proj2 (probabilities_as_labels_keys [C0; C1; C0; C0] (mkSV [C0; C1; C0; C0]) eq_refl)).
Defined.

(** ** Sampling a basis state *)

Lemma draws_range {G} (uniform : G -> R * G)
  (Hu : forall g, 0 <= fst (uniform g) < 1) (m : nat) (g : G) :
  Forall (fun u => 0 <= u < 1) (draws uniform m g).
Proof.
  revert g. induction m as [| m IH]; intro g; simpl; [constructor |].
  specialize (Hu g). destruct (uniform g) as [u g']. constructor; [exact Hu | apply IH].
Qed.

Lemma fold_incr_repeat (l : string) (m c : nat) :
  fold_left (fun acc l => incr l acc) (repeat l m) [(l, c)] = [(l, (c + m)%nat)].
Proof.
  revert c. induction m as [| m IH]; intro c; simpl.
  - rewrite Nat.add_0_r. reflexivity.
  - rewrite String.eqb_refl, IH. replace (c + S m)%nat with (S c + m)%nat by lia. reflexivity.
Qed.

Lemma tally_repeat (l : string) (m : nat) :
  (0 < m)%nat -> tally (repeat l m) = [(l, m)].
Proof.
  intro Hm. destruct m as [| m]; [lia |]. unfold tally. simpl.
  rewrite fold_incr_repeat. reflexivity.
Qed.

(** Sampling a collapsed state [shots > 0] times puts every shot on the
    label of the index it collapsed onto. *)
Theorem sample_counts_collapsed {G} (uniform : G -> R * G)
  (Hu : forall g, 0 <= fst (uniform g) < 1)
  (s : StateVector) (k : nat) (Hk : (k < length (amplitudes s))%nat)
  (shots : Z) (g : G) (Hs : (0 < shots)%Z) :
  fst (sample_counts uniform (collapse_to s k) shots g) =
  Ok [(label (num_qubits s) k, Z.to_nat shots)].
Proof.
  rewrite sample_counts_result.
  rewrite (collapse_valid s k default_tolerance);
    [| unfold default_tolerance; lra | exact Hk].
  simpl negb. cbv iota.
  destruct (Z.ltb_spec shots 0) as [Hn | _]; [lia |].
  f_equal. rewrite collapse_num_qubits.
  rewrite (map_ext_in _ (fun _ => label (num_qubits s) k)).
  - rewrite map_const, draws_length. apply tally_repeat. lia.
  - intros u Hin. f_equal. apply collapse_select; [| exact Hk].
    exact (proj1 (Forall_forall _ _) (draws_range uniform Hu _ g) u Hin).
Qed.

Lemma sample_counts_collapsed_witness :
  fst (sample_counts half_source (collapse_to (mkSV [C1; C0]) 1) 3 0%nat) =
  Ok [(label 1 1, 3%nat)].
Proof.
  exact (sample_counts_collapsed half_source
           (fun g => ltac:(unfold half_source; simpl; lra))
           (mkSV [C1; C0]) 1 ltac:(simpl; lia) 3 0%nat ltac:(lia)).
Defined.
